(** * Paged K-V cache memory manager: block pool and per-sequence block table

    A shallow embedding of [block_manager.py] (class [BlockManager]) and
    [sequence.py] (class [Sequence]), followed by the properties of the
    allocator and of the logical-to-physical translation.

    Conventions of the embedding.
    - Python [int] is [Z]; [//] and [%] are [Z.div] and [Z.modulo] (both
      floor towards minus infinity, the remainder takes the sign of the
      divisor), except that a zero divisor raises [ZeroDivisionError].
    - A method that mutates [self] and/or the manager and may raise returns
      the outcome together with the objects as they are when the call
      returns or the exception leaves the method.
    - [free_blocks] is a Python list used as a stack: a [list Z] whose last
      element is the top.
    - [block_table] is a Python dict, which iterates in insertion order: an
      association list in insertion order.
    - The tensors [key_cache] and [value_cache] hold the payload only; no
      method embedded here reads them, and they are left out.  ([torch.zeros]
      rejects a negative dimension, so [__init__] returns only for
      non-negative parameters; the embedding of [__init__] is the record it
      builds when it returns.) *)

From Stdlib Require Import String ZArith List Lia Bool Permutation.
Import ListNotations.
Open Scope string_scope.
Open Scope list_scope.
Open Scope Z_scope.

(** * The embedding *)

(** ** Exceptions *)

Inductive exn_class : Type :=
| RuntimeError
| ValueError
| ZeroDivisionError
| IndexError.

(** One constructor per [raise] site, carrying the values that the source
    formats into the message. *)
Inductive exn : Type :=
| AllAllocated (num_blocks : Z)
    (* RuntimeError "Total blocks: {num_blocks}, All allocated." *)
| InvalidBlockIndex (block_index num_blocks : Z)
    (* ValueError "Invalid block index: {block_index}. Must be between ..." *)
| AlreadyFree (block_index : Z)
    (* ValueError "Block {block_index} is already free. " *)
| AllocFailed (request_id : string) (token_count : Z) (cause : exn)
    (* RuntimeError "Failed to allocate block for sequence {request_id}
       at token {token_count}: {cause}" *)
| InvalidTokenIndex (token_index token_count : Z)
    (* ValueError "Invalid token index: {token_index}. Must be between ..." *)
| LogicalBlockNotFound (logical_block_idx token_index : Z)
    (* ValueError "Logical block {logical_block_idx} not found in block
       table. Token {token_index} has not been allocated yet." *)
| DivisionByZero
    (* ZeroDivisionError, raised by [//] and [%] *)
| PopFromEmptyList.
    (* IndexError, raised by [list.pop] on an empty list *)

Definition class_of (e : exn) : exn_class :=
  match e with
  | AllAllocated _ => RuntimeError
  | InvalidBlockIndex _ _ => ValueError
  | AlreadyFree _ => ValueError
  | AllocFailed _ _ _ => RuntimeError
  | InvalidTokenIndex _ _ => ValueError
  | LogicalBlockNotFound _ _ => ValueError
  | DivisionByZero => ZeroDivisionError
  | PopFromEmptyList => IndexError
  end.

Inductive result (A : Type) : Type :=
| Ok (a : A)
| Raise (e : exn).
Arguments Ok {A} a.
Arguments Raise {A} e.

(** ** Python lists and dicts *)

(** [list(range(n))] *)
Definition range (n : Z) : list Z := map Z.of_nat (seq 0 (Z.to_nat n)).

(** [l.pop()]: the last element and the list without it. *)
Definition list_pop {A : Type} (l : list A) : option (A * list A) :=
  match rev l with
  | [] => None
  | x :: r => Some (x, rev r)
  end.

(** [x in l] *)
Definition list_contains (x : Z) (l : list Z) : bool := existsb (Z.eqb x) l.

Definition dict : Type := list (Z * Z).

(** [d[k]], [None] standing for KeyError *)
Fixpoint dict_get (k : Z) (d : dict) : option Z :=
  match d with
  | [] => None
  | (k', v) :: d' => if k =? k' then Some v else dict_get k d'
  end.

(** [k in d] *)
Definition dict_contains (k : Z) (d : dict) : bool :=
  match dict_get k d with Some _ => true | None => false end.

(** [d[k] = v]: an existing key keeps its position, a new key goes last. *)
Fixpoint dict_set (k v : Z) (d : dict) : dict :=
  match d with
  | [] => [(k, v)]
  | (k', v') :: d' =>
      if k =? k' then (k, v) :: d' else (k', v') :: dict_set k v d'
  end.

(** [d.values()], in iteration order *)
Definition dict_values (d : dict) : list Z := map snd d.

Definition dict_keys (d : dict) : list Z := map fst d.

(** ** block_manager.py *)

Record BlockManager : Type := mkBlockManager {
  num_blocks : Z;
  block_size : Z;
  num_layers : Z;
  num_heads : Z;
  head_size : Z;
  device : string;
  free_blocks : list Z
}.

Definition with_free_blocks (m : BlockManager) (fb : list Z) : BlockManager :=
  {| num_blocks := num_blocks m;
     block_size := block_size m;
     num_layers := num_layers m;
     num_heads := num_heads m;
     head_size := head_size m;
     device := device m;
     free_blocks := fb |}.

(** [BlockManager.__init__] *)
Definition BlockManager_init
    (num_blocks block_size num_layers num_heads head_size : Z)
    (device : string) : BlockManager :=
  {| num_blocks := num_blocks;
     block_size := block_size;
     num_layers := num_layers;
     num_heads := num_heads;
     head_size := head_size;
     device := device;
     free_blocks := range num_blocks |}.

(** [BlockManager.allocate_block] *)
Definition allocate_block (m : BlockManager) : result Z * BlockManager :=
  match free_blocks m with
  | [] => (Raise (AllAllocated (num_blocks m)), m)
  | _ :: _ =>
      match list_pop (free_blocks m) with
      | Some (b, rest) => (Ok b, with_free_blocks m rest)
      | None => (Raise PopFromEmptyList, m)
      end
  end.

(** [BlockManager.free_block] *)
Definition free_block (m : BlockManager) (block_index : Z)
  : result unit * BlockManager :=
  if (block_index <? 0) || (block_index >=? num_blocks m) then
    (Raise (InvalidBlockIndex block_index (num_blocks m)), m)
  else if list_contains block_index (free_blocks m) then
    (Raise (AlreadyFree block_index), m)
  else
    (Ok tt, with_free_blocks m (free_blocks m ++ [block_index])).

(** [BlockManager.get_num_free_blocks] *)
Definition get_num_free_blocks (m : BlockManager) : Z :=
  Z.of_nat (length (free_blocks m)).

(** ** sequence.py *)

Record Sequence : Type := mkSequence {
  request_id : string;
  token_count : Z;
  block_table : dict
}.

(** [Sequence.__init__] *)
Definition Sequence_init (request_id : string) : Sequence :=
  {| request_id := request_id; token_count := 0; block_table := [] |}.

(** [Sequence.append_token].  The [try] catches [RuntimeError] only and
    re-raises it with the request id and the token count; nothing has been
    assigned to [self] when [allocate_block] raises. *)
Definition append_token (s : Sequence) (m : BlockManager)
  : result unit * Sequence * BlockManager :=
  if block_size m =? 0 then (Raise DivisionByZero, s, m)
  else
    let logical_block_idx := token_count s / block_size m in
    if negb (dict_contains logical_block_idx (block_table s)) then
      match allocate_block m with
      | (Ok physical_block_idx, m') =>
          (Ok tt,
           {| request_id := request_id s;
              token_count := token_count s + 1;
              block_table :=
                dict_set logical_block_idx physical_block_idx (block_table s) |},
           m')
      | (Raise e, m') =>
          match class_of e with
          | RuntimeError =>
              (Raise (AllocFailed (request_id s) (token_count s) e), s, m')
          | _ => (Raise e, s, m')
          end
      end
    else
      (Ok tt,
       {| request_id := request_id s;
          token_count := token_count s + 1;
          block_table := block_table s |},
       m).

(** The loop [for _ in range(num_tokens): self.append_token(manager)];
    an exception leaves the loop at once. *)
Fixpoint append_tokens_loop (k : nat) (s : Sequence) (m : BlockManager)
  : result unit * Sequence * BlockManager :=
  match k with
  | O => (Ok tt, s, m)
  | S k' =>
      match append_token s m with
      | (Ok _, s', m') => append_tokens_loop k' s' m'
      | (Raise e, s', m') => (Raise e, s', m')
      end
  end.

(** [Sequence.append_tokens]; [range(n)] is empty for [n <= 0]. *)
Definition append_tokens (s : Sequence) (m : BlockManager) (num_tokens : Z)
  : result unit * Sequence * BlockManager :=
  append_tokens_loop (Z.to_nat num_tokens) s m.

(** [Sequence.get_physical_block] *)
Definition get_physical_block (s : Sequence) (token_index : Z)
    (m : BlockManager) : result (Z * Z) :=
  if (token_index <? 0) || (token_index >=? token_count s) then
    Raise (InvalidTokenIndex token_index (token_count s))
  else if block_size m =? 0 then Raise DivisionByZero
  else
    let logical_block_idx := token_index / block_size m in
    let offset := token_index mod block_size m in
    match dict_get logical_block_idx (block_table s) with
    | None => Raise (LogicalBlockNotFound logical_block_idx token_index)
    | Some physical_block_idx => Ok (physical_block_idx, offset)
    end.

(** [Sequence.get_num_blocks] *)
Definition get_num_blocks (s : Sequence) : Z :=
  Z.of_nat (length (block_table s)).

(** The loop [for physical_block_idx in self.block_table.values():
    manager.free_block(physical_block_idx)]. *)
Fixpoint free_blocks_loop (ids : list Z) (m : BlockManager)
  : result unit * BlockManager :=
  match ids with
  | [] => (Ok tt, m)
  | physical_block_idx :: rest =>
      match free_block m physical_block_idx with
      | (Ok _, m') => free_blocks_loop rest m'
      | (Raise e, m') => (Raise e, m')
      end
  end.

(** [Sequence.free_all_blocks]: the table is cleared and the count reset
    only after the loop has run to its end. *)
Definition free_all_blocks (s : Sequence) (m : BlockManager)
  : result unit * Sequence * BlockManager :=
  match free_blocks_loop (dict_values (block_table s)) m with
  | (Ok _, m') =>
      (Ok tt,
       {| request_id := request_id s; token_count := 0; block_table := [] |},
       m')
  | (Raise e, m') => (Raise e, s, m')
  end.

(** ** Drivers and sample objects of the statements *)

(** The pool of the demonstration driver. *)
Definition demo_manager : BlockManager :=
  BlockManager_init 100 16 4 8 64 "cpu".

(** [k] calls of [allocate_block] in a row, every outcome recorded. *)
Fixpoint allocate_times (k : nat) (m : BlockManager)
  : list (result Z) * BlockManager :=
  match k with
  | O => ([], m)
  | S k' =>
      let '(r, m') := allocate_block m in
      let '(rs, m'') := allocate_times k' m' in
      (r :: rs, m'')
  end.

(** The identifiers of the free list are identifiers of the pool. *)
Definition free_in_range (m : BlockManager) : Prop :=
  forall id, In id (free_blocks m) -> 0 <= id < num_blocks m.

(** ** Single calls on a sequence *)

(** [appended k s m s' m']: [k] calls of [append_token] in a row, starting
    from sequence [s] and pool [m], all return normally and end in [s'] and
    [m']. *)
Inductive appended
  : nat -> Sequence -> BlockManager -> Sequence -> BlockManager -> Prop :=
| appended_O s m : appended O s m s m
| appended_S k s m s1 m1 s2 m2 :
    append_token s m = (Ok tt, s1, m1) ->
    appended k s1 m1 s2 m2 ->
    appended (S k) s m s2 m2.

(** [released ids m m']: the calls [free_block] on the identifiers [ids], in
    this order, starting from pool [m], all return normally and end in
    [m']. *)
Inductive released : list Z -> BlockManager -> BlockManager -> Prop :=
| released_nil m : released [] m m
| released_cons b ids m m1 m2 :
    free_block m b = (Ok tt, m1) ->
    released ids m1 m2 ->
    released (b :: ids) m m2.

Definition cleared (s : Sequence) : Sequence :=
  {| request_id := request_id s; token_count := 0; block_table := [] |}.

(** Small pools used in the instances below. *)
Definition small_pool : BlockManager := BlockManager_init 2 4 1 1 1 "cpu".
Definition drained_pool : BlockManager := with_free_blocks small_pool [].

(** ** The life of one sequence

    A sequence changes only through its own methods.  Its life is the list
    of the calls made on it, each with the pool as it is when the call is
    made: between two calls the pool may have served any other sequence.
    A call of [append_tokens] is the run of [append_token] calls it
    makes. *)

Inductive call : Type :=
| Append (m : BlockManager)
| FreeAll (m : BlockManager).

Definition call_pool (c : call) : BlockManager :=
  match c with Append m => m | FreeAll m => m end.

(** The sequence after one call, whether it returned or raised. *)
Definition do_call (s : Sequence) (c : call) : Sequence :=
  match c with
  | Append m => snd (fst (append_token s m))
  | FreeAll m => snd (fst (free_all_blocks s m))
  end.

Definition after_calls (s : Sequence) (cs : list call) : Sequence :=
  fold_left do_call cs s.

(** All calls are made with pools of block size [bs]. *)
Definition calls_on (bs : Z) (cs : list call) : Prop :=
  Forall (fun c => block_size (call_pool c) = bs) cs.

(** The ceiling of [a / b] for [b > 0]. *)
Definition ceil_div (a b : Z) : Z := (a + b - 1) / b.

(** The keys of the block table are [0, 1, ...], one per block begun. *)
Definition tiled (bs : Z) (s : Sequence) : Prop :=
  0 <= token_count s /\
  dict_keys (block_table s) = range (ceil_div (token_count s) bs).

(** ** Translation of token positions *)

Definition is_prefix {A : Type} (p l : list A) : Prop :=
  exists rest, l = p ++ rest.

(** [first_touch bs s0 cs L p]: in the life [cs] of a sequence that started
    as [s0], some call [Append m1] found logical block [L] absent from the
    block table when the token count pointed into [L], the pool handed out
    [p] at that call, and after that call and after every later call key
    [L] has been mapped to [p]. *)
Definition first_touch
    (bs : Z) (s0 : Sequence) (cs : list call) (L p : Z) : Prop :=
  exists cs1 m1 m1' cs2,
    cs = cs1 ++ Append m1 :: cs2 /\
    token_count (after_calls s0 cs1) / bs = L /\
    dict_contains L (block_table (after_calls s0 cs1)) = false /\
    allocate_block m1 = (Ok p, m1') /\
    (forall pre, is_prefix pre cs2 ->
       dict_get L (block_table (after_calls s0 (cs1 ++ Append m1 :: pre)))
         = Some p).

(** Every token of the sequence lies in a mapped logical block. *)
Definition covered (bs : Z) (s : Sequence) : Prop :=
  0 <= token_count s /\
  (0 < token_count s -> bs <> 0) /\
  (forall k, 0 <= k < token_count s ->
     dict_contains (k / bs) (block_table s) = true).

(** ** A sequence alone on a pool *)

(** The calls that make a sequence grow. *)
Inductive grow : Type :=
| GrowToken
| GrowTokens (num_tokens : Z).

(** Sequence and pool after one such call, whether it returned or raised. *)
Definition do_grow (st : Sequence * BlockManager) (g : grow)
  : Sequence * BlockManager :=
  match g with
  | GrowToken =>
      let '(_, s', m') := append_token (fst st) (snd st) in (s', m')
  | GrowTokens n =>
      let '(_, s', m') := append_tokens (fst st) (snd st) n in (s', m')
  end.

Definition grown (s : Sequence) (m : BlockManager) (gs : list grow)
  : Sequence * BlockManager :=
  fold_left do_grow gs (s, m).

(** Blocks free in the pool plus blocks in the table. *)
Definition blocks_total (s : Sequence) (m : BlockManager) : nat :=
  (length (free_blocks m) + length (block_table s))%nat.

Definition life_of_six : list call :=
  [Append small_pool; Append (with_free_blocks small_pool [0]);
   Append drained_pool; Append drained_pool;
   Append (with_free_blocks small_pool [0]); Append drained_pool].

(** A table whose second block was released behind its back. *)
Definition stale_sequence : Sequence := mkSequence "r" 5 [(0, 1); (1, 0)].
Definition stale_pool : BlockManager := with_free_blocks small_pool [0].

(** ** Several sequences on one pool

    The driver keeps one [BlockManager] and any number of [Sequence]
    objects and calls their methods in any order; it may also call
    [allocate_block] and [free_block] itself.  [held] records the
    identifiers that the driver got from its own calls of [allocate_block]
    and has not given back: the pool keeps no record of who holds an
    allocated block. *)

Record System : Type := mkSystem {
  pool : BlockManager;
  sequences : list Sequence;
  held : list Z
}.

Inductive op : Type :=
| NewSequence (rid : string)
| Allocate
| Release (id : Z)
| AppendToken (i : nat)
| AppendTokens (i : nat) (num_tokens : Z)
| ReleaseAll (i : nat).

Fixpoint set_nth {A : Type} (i : nat) (x : A) (l : list A) : list A :=
  match l, i with
  | [], _ => []
  | _ :: t, O => x :: t
  | h :: t, S j => h :: set_nth j x t
  end.

(** A method call on the [i]-th sequence; an exception is caught by the
    driver, which goes on with the objects as the call left them.  An
    index that names no sequence is no call. *)
Definition on_sequence (i : nat)
    (f : Sequence -> BlockManager -> result unit * Sequence * BlockManager)
    (st : System) : System :=
  match nth_error (sequences st) i with
  | None => st
  | Some s =>
      let '(_, s', m') := f s (pool st) in
      {| pool := m'; sequences := set_nth i s' (sequences st);
         held := held st |}
  end.

Definition exec (st : System) (o : op) : System :=
  match o with
  | NewSequence rid =>
      {| pool := pool st;
         sequences := sequences st ++ [Sequence_init rid];
         held := held st |}
  | Allocate =>
      match allocate_block (pool st) with
      | (Ok b, m') =>
          {| pool := m'; sequences := sequences st; held := b :: held st |}
      | (Raise _, m') =>
          {| pool := m'; sequences := sequences st; held := held st |}
      end
  | Release id =>
      match free_block (pool st) id with
      | (Ok _, m') =>
          {| pool := m'; sequences := sequences st;
             held := remove Z.eq_dec id (held st) |}
      | (Raise _, m') =>
          {| pool := m'; sequences := sequences st; held := held st |}
      end
  | AppendToken i => on_sequence i append_token st
  | AppendTokens i n => on_sequence i (fun s m => append_tokens s m n) st
  | ReleaseAll i => on_sequence i free_all_blocks st
  end.

Definition run (st : System) (ops : list op) : System := fold_left exec ops st.

(** A freshly constructed pool and no sequence yet. *)
Definition boot (n bs nl nh hs : Z) (dev : string) : System :=
  {| pool := BlockManager_init n bs nl nh hs dev;
     sequences := [];
     held := [] |}.

Definition table_ids (s : Sequence) : list Z := dict_values (block_table s).

(** How often [id] occurs in the free list, in the driver's hands, and in
    the block tables of all sequences. *)
Definition in_free (st : System) (id : Z) : nat :=
  count_occ Z.eq_dec (free_blocks (pool st)) id.
Definition in_held (st : System) (id : Z) : nat :=
  count_occ Z.eq_dec (held st) id.
Definition in_tables (st : System) (id : Z) : nat :=
  list_sum (map (fun s => count_occ Z.eq_dec (table_ids s) id) (sequences st)).

(** No identifier is in the tables of two sequences. *)
Definition no_sharing (st : System) : Prop :=
  forall i j si sj id,
    i <> j ->
    nth_error (sequences st) i = Some si ->
    nth_error (sequences st) j = Some sj ->
    In id (table_ids si) -> ~ In id (table_ids sj).

(** The partition as the data model words it: every identifier of the pool
    is free or in one block table, exactly once in all. *)
Definition exclusive_ownership (st : System) : Prop :=
  (forall id, 0 <= id < num_blocks (pool st) ->
     (in_free st id + in_tables st id = 1)%nat) /\
  no_sharing st.

(** The partition with the driver's own blocks counted. *)
Definition partition (st : System) : Prop :=
  (forall id, 0 <= id < num_blocks (pool st) ->
     (in_free st id + in_held st id + in_tables st id = 1)%nat) /\
  (forall id, ~ 0 <= id < num_blocks (pool st) ->
     (in_free st id + in_held st id + in_tables st id = 0)%nat) /\
  no_sharing st.

Definition in_some_table (st : System) (id : Z) : bool :=
  existsb (fun s => list_contains id (table_ids s)) (sequences st).

(** The driver releases by hand only what no block table refers to. *)
Definition admissible_op (st : System) (o : op) : bool :=
  match o with
  | Release id => negb (in_some_table st id)
  | _ => true
  end.

Fixpoint admissible (st : System) (ops : list op) : bool :=
  match ops with
  | [] => true
  | o :: rest => admissible_op st o && admissible (exec st o) rest
  end.

Definition small_system : System := boot 2 4 1 1 1 "cpu".

Definition all_ids (st : System) : list Z :=
  free_blocks (pool st) ++ held st ++ concat (map table_ids (sequences st)).

(** The invariant behind the partition: free list, driver's blocks and
    block tables together are a rearrangement of [0 .. num_blocks - 1]. *)
Definition accounted (st : System) : Prop :=
  Permutation (all_ids st) (range (num_blocks (pool st))).

(** A call that only moves identifiers between the free list and the
    table of the sequence it is made on. *)
Definition local_move (s : Sequence) (m : BlockManager)
    (s' : Sequence) (m' : BlockManager) : Prop :=
  Permutation (free_blocks m' ++ table_ids s') (free_blocks m ++ table_ids s) /\
  num_blocks m' = num_blocks m.

Definition busy_day : list op :=
  [NewSequence "a"; AppendTokens 0 5; Allocate; NewSequence "b";
   AppendToken 1; AppendToken 1; ReleaseAll 0; Release 1; Release 7;
   AppendTokens 1 9; ReleaseAll 1; Allocate].

(** ** block_manager.py: the payload accessor *)

Inductive cache_kind : Type :=
| KeyCache
| ValueCache.

(** The view [cache[block_index]] that [get_cache_block] returns: which of
    the two tensors it looks into, at which block, and its shape
    [[num_layers, num_heads, block_size, head_size]].  The numbers stored in
    the tensor are not modelled. *)
Record CacheView : Type := mkCacheView {
  view_cache : cache_kind;
  view_block : Z;
  view_shape : Z * Z * Z * Z
}.

Inductive view_result : Type :=
| ViewOk (v : CacheView)
| ViewInvalidIndex (block_index num_blocks : Z)
    (* ValueError "Invalid block index: {block_index}. Must be between ..." *)
| ViewInvalidType (cache_type : string).
    (* ValueError "Invalid cache_type: {cache_type}. Must be 'key' or
       'value'" *)

(** [BlockManager.get_cache_block] *)
Definition get_cache_block (m : BlockManager) (block_index : Z)
    (cache_type : string) : view_result :=
  if (block_index <? 0) || (block_index >=? num_blocks m) then
    ViewInvalidIndex block_index (num_blocks m)
  else if String.eqb cache_type "key" then
    ViewOk {| view_cache := KeyCache; view_block := block_index;
              view_shape :=
                (num_layers m, num_heads m, block_size m, head_size m) |}
  else if String.eqb cache_type "value" then
    ViewOk {| view_cache := ValueCache; view_block := block_index;
              view_shape :=
                (num_layers m, num_heads m, block_size m, head_size m) |}
  else
    ViewInvalidType cache_type.

(** ** main.py: what the driver computes *)

(** [sum(seq.get_num_blocks() for seq in sequences.values())] *)
Definition total_blocks_used (seqs : list Sequence) : Z :=
  fold_right (fun s acc => get_num_blocks s + acc) 0 seqs.

(** The body of the request loops of [test_case_3_high_utilization]: a new
    sequence, [append_tokens], and the block count the driver prints,
    [num_tokens // manager.block_size].  An exception of [append_tokens]
    leaves the body before the count is computed (the second loop catches
    a [RuntimeError], the first lets it through); the new [Sequence] object
    is then dropped without [free_all_blocks]. *)
Definition serve_request
    (m : BlockManager) (seq_id : string) (num_tokens : Z)
  : result (Sequence * Z) * BlockManager :=
  match append_tokens (Sequence_init seq_id) m num_tokens with
  | (Ok _, seq, m') =>
      if block_size m' =? 0 then (Raise DivisionByZero, m')
      else (Ok (seq, num_tokens / block_size m'), m')
  | (Raise e, _, m') => (Raise e, m')
  end.

(** What [test_case_2_fragmentation_demo] prints, as numbers. *)
Record demo_report : Type := mkDemoReport {
  seq_1_blocks : Z;            (* "Allocated {n} blocks for seq_1" *)
  free_after_seq_1 : Z;        (* print_status *)
  seq_2_blocks : Z;            (* "Allocated {n} blocks for seq_2" *)
  free_after_seq_2 : Z;        (* print_status *)
  first_attempt : result unit; (* "SUCCESS ..." or "Error - {e}" *)
  free_after_release : Z;      (* "[SIM] Free blocks: {n}/100" *)
  second_attempt : result unit;(* "SUCCESS! ..." or "FAILED - {e}" *)
  seq_3_blocks : Z;            (* blocks of the second [seq_3] object *)
  free_at_end : Z              (* free blocks when the function returns *)
}.

(** [try: body except RuntimeError]: a caught exception is a value, any
    other exception leaves the function. *)
Definition caught_RuntimeError (e : exn) : bool :=
  match class_of e with RuntimeError => true | _ => false end.

(** The exception, if any, that gets past [except RuntimeError]. *)
Definition escapes (r : result unit) : option exn :=
  match r with
  | Ok _ => None
  | Raise e => if caught_RuntimeError e then None else Some e
  end.

(** [test_case_2_fragmentation_demo]; [Raise] is an exception that leaves
    the function.  The first [seq_3] object is rebound in step 5 and never
    released. *)
Definition test_case_2_fragmentation_demo : result demo_report :=
  let manager := BlockManager_init 100 16 4 8 64 "cpu" in
  match append_tokens (Sequence_init "seq_1") manager 640 with
  | (Raise e, _, _) => Raise e
  | (Ok _, seq_1, manager) =>
  let b1 := get_num_blocks seq_1 in
  let f1 := get_num_free_blocks manager in
  match append_tokens (Sequence_init "seq_2") manager 640 with
  | (Raise e, _, _) => Raise e
  | (Ok _, seq_2, manager) =>
  let b2 := get_num_blocks seq_2 in
  let f2 := get_num_free_blocks manager in
  let '(r3, seq_3, manager) :=
    append_tokens (Sequence_init "seq_3") manager 480 in
  match escapes r3 with
  | Some e => Raise e
  | None =>
  match free_all_blocks seq_1 manager with
  | (Raise e, _, _) => Raise e
  | (Ok _, seq_1, manager) =>
  let f4 := get_num_free_blocks manager in
  let '(r5, seq_3', manager) :=
    append_tokens (Sequence_init "seq_3") manager 480 in
  match escapes r5 with
  | Some e => Raise e
  | None =>
      Ok {| seq_1_blocks := b1; free_after_seq_1 := f1;
            seq_2_blocks := b2; free_after_seq_2 := f2;
            first_attempt := r3; free_after_release := f4;
            second_attempt := r5;
            seq_3_blocks := get_num_blocks seq_3';
            free_at_end := get_num_free_blocks manager |}
  end
  end
  end
  end
  end.

(** ** Well-formed pools *)

(** The free list holds identifiers of the pool, each at most once. *)
Definition pool_wf (m : BlockManager) : Prop :=
  NoDup (free_blocks m) /\ free_in_range m.

(** The round trip as the testable properties word it: a sequence starts
    empty on a pool [P], the driver makes any calls on it and on other
    sequences of the same pool, and a [free_all_blocks] of the sequence
    that returns brings the free count back to what it was for [P]. *)
Definition round_trip_as_worded : Prop :=
  forall (P : BlockManager) (rid : string) (ops : list op)
         (s s' : Sequence) (m' : BlockManager),
    let st := run (mkSystem P [Sequence_init rid] []) ops in
    nth_error (sequences st) 0 = Some s ->
    free_all_blocks s (pool st) = (Ok tt, s', m') ->
    get_num_free_blocks m' = get_num_free_blocks P /\
    get_num_blocks s' = 0.

(** No method changes anything of the pool but its free list. *)
Definition same_frame (m m' : BlockManager) : Prop :=
  exists fb, m' = with_free_blocks m fb.

(** A pool of eight blocks of which three scattered ones are free. *)
Definition scattered_pool : BlockManager :=
  with_free_blocks (BlockManager_init 8 4 1 1 1 "cpu") [0; 5; 3].

(** * Properties *)

Example scenario_A :
  let '(r, s, m) := append_tokens (Sequence_init "seq_A") demo_manager 30 in
  r = Ok tt /\ get_num_blocks s = 2 /\
  get_physical_block s 29 m = Ok (98, 13) /\
  get_physical_block s 0 m = Ok (99, 0) /\
  get_num_free_blocks m = 98.
Proof. vm_compute. repeat split. Qed.

(** ** Lists *)

Section ListFacts.

Lemma list_pop_app {A : Type} (l : list A) (x : A) :
  list_pop (l ++ [x]) = Some (x, l).
Proof.
  unfold list_pop. rewrite rev_unit, rev_involutive. reflexivity.
Qed.

Lemma list_contains_In (x : Z) (l : list Z) :
  list_contains x l = true <-> In x l.
Proof.
  unfold list_contains. rewrite existsb_exists. split.
  - intros [y [Hy Heq]]. apply Z.eqb_eq in Heq. now subst.
  - intros H. exists x. split; [assumption | apply Z.eqb_refl].
Qed.

Lemma list_contains_not_In (x : Z) (l : list Z) :
  list_contains x l = false <-> ~ In x l.
Proof.
  rewrite <- list_contains_In. destruct (list_contains x l); intuition congruence.
Qed.

Lemma range_length (n : Z) : length (range n) = Z.to_nat n.
Proof. unfold range. now rewrite length_map, length_seq. Qed.

Lemma range_In (n x : Z) : In x (range n) <-> 0 <= x < n.
Proof.
  unfold range. rewrite in_map_iff. split.
  - intros [k [Hk Hin]]. apply in_seq in Hin. lia.
  - intros H. exists (Z.to_nat x). split; [lia | apply in_seq; lia].
Qed.

Lemma range_NoDup (n : Z) : NoDup (range n).
Proof.
  unfold range. apply Finite.Injective_map_NoDup.
  - intros a b. apply Nat2Z.inj.
  - apply seq_NoDup.
Qed.

End ListFacts.

(** ** The block pool *)

Section Pool.

Lemma with_free_blocks_same (m : BlockManager) :
  with_free_blocks m (free_blocks m) = m.
Proof. now destruct m. Qed.

Lemma allocate_block_top (m : BlockManager) (l : list Z) (x : Z) :
  free_blocks m = l ++ [x] ->
  allocate_block m = (Ok x, with_free_blocks m l).
Proof.
  intros H. unfold allocate_block. rewrite H.
  destruct (l ++ [x]) eqn:E.
  - now destruct l.
  - rewrite <- E, list_pop_app. reflexivity.
Qed.

Lemma allocate_block_empty (m : BlockManager) :
  free_blocks m = [] ->
  allocate_block m = (Raise (AllAllocated (num_blocks m)), m).
Proof. intros H. unfold allocate_block. now rewrite H. Qed.

(** Every outcome of [allocate_block], by the shape of the free list. *)
Lemma allocate_block_cases (m : BlockManager) :
  (free_blocks m = [] /\
   allocate_block m = (Raise (AllAllocated (num_blocks m)), m)) \/
  (exists l x, free_blocks m = l ++ [x] /\
               allocate_block m = (Ok x, with_free_blocks m l)).
Proof.
  destruct (free_blocks m) as [|a l] eqn:E using rev_ind.
  - left. split; [reflexivity | now apply allocate_block_empty].
  - right. exists l, a. split; [reflexivity | now apply allocate_block_top].
Qed.

Lemma allocate_times_drains (l : list Z) :
  forall m, free_blocks m = l ->
    allocate_times (length l) m = (map Ok (rev l), with_free_blocks m []).
Proof.
  induction l as [|x l IH] using rev_ind; intros m H.
  - simpl. rewrite <- H. now rewrite with_free_blocks_same.
  - rewrite length_app, Nat.add_comm. simpl.
    rewrite (allocate_block_top m l x H).
    rewrite (IH (with_free_blocks m l) eq_refl).
    rewrite rev_unit. reflexivity.
Qed.

(** C5. A pool constructed with [num_blocks >= 0] has [num_blocks] free
    blocks; [num_blocks] calls of [allocate_block] all succeed and return
    every identifier of [[0, num_blocks)] exactly once (from the highest
    down); then no block is free, and a further call raises the
    out-of-blocks [RuntimeError] and leaves the pool as it is. *)
Theorem pool_exhaustion
    (n bs nl nh hs : Z) (dev : string) (Hn : 0 <= n) :
  let m0 := BlockManager_init n bs nl nh hs dev in
  get_num_free_blocks m0 = n /\
  exists ids m1,
    allocate_times (Z.to_nat n) m0 = (map Ok ids, m1) /\
    ids = rev (range n) /\
    NoDup ids /\
    (forall id, In id ids <-> 0 <= id < n) /\
    get_num_free_blocks m1 = 0 /\
    allocate_block m1 = (Raise (AllAllocated n), m1) /\
    class_of (AllAllocated n) = RuntimeError.
Proof.
  intros m0. split.
  - unfold get_num_free_blocks, m0. simpl. rewrite range_length. lia.
  - exists (rev (range n)), (with_free_blocks m0 []).
    split; [|split; [|split; [|split; [|split; [|split]]]]];
      try reflexivity.
    + rewrite <- (range_length n).
      now apply allocate_times_drains.
    + apply NoDup_rev, range_NoDup.
    + intros id. rewrite <- in_rev. apply range_In.
Qed.

Lemma pool_exhaustion_witness :
  get_num_free_blocks demo_manager = 100 /\
  exists ids m1,
    allocate_times 100 demo_manager = (map Ok ids, m1) /\
    ids = rev (range 100) /\
    NoDup ids /\
    (forall id, In id ids <-> 0 <= id < 100) /\
    get_num_free_blocks m1 = 0 /\
    allocate_block m1 = (Raise (AllAllocated 100), m1) /\
    class_of (AllAllocated 100) = RuntimeError.
Proof.
  apply (pool_exhaustion 100 16 4 8 64 "cpu"). lia.
Defined.

Lemma free_block_invalid (m : BlockManager) (id : Z) :
  id < 0 \/ num_blocks m <= id ->
  free_block m id = (Raise (InvalidBlockIndex id (num_blocks m)), m).
Proof.
  intros H. unfold free_block.
  destruct (id <? 0) eqn:E1; [reflexivity|].
  destruct (id >=? num_blocks m) eqn:E2; [reflexivity|]. lia.
Qed.

Lemma free_block_already_free (m : BlockManager) (id : Z) :
  0 <= id < num_blocks m -> In id (free_blocks m) ->
  free_block m id = (Raise (AlreadyFree id), m).
Proof.
  intros Hr Hin. unfold free_block.
  destruct (id <? 0) eqn:E1; [lia|].
  destruct (id >=? num_blocks m) eqn:E2; [lia|]. simpl.
  apply list_contains_In in Hin. now rewrite Hin.
Qed.

Lemma free_block_fresh (m : BlockManager) (id : Z) :
  0 <= id < num_blocks m -> ~ In id (free_blocks m) ->
  free_block m id = (Ok tt, with_free_blocks m (free_blocks m ++ [id])).
Proof.
  intros Hr Hnin. unfold free_block.
  destruct (id <? 0) eqn:E1; [lia|].
  destruct (id >=? num_blocks m) eqn:E2; [lia|]. simpl.
  apply list_contains_not_In in Hnin. now rewrite Hnin.
Qed.

Lemma free_block_raise (m m' : BlockManager) (b : Z) (e : exn) :
  free_block m b = (Raise e, m') -> m' = m.
Proof.
  unfold free_block.
  destruct ((b <? 0) || (b >=? num_blocks m)); [now intros [= _ <-]|].
  destruct (list_contains b (free_blocks m)); [now intros [= _ <-]|].
  discriminate.
Qed.

Lemma free_block_ok (m m' : BlockManager) (b : Z) (u : unit) :
  free_block m b = (Ok u, m') ->
  0 <= b < num_blocks m /\ ~ In b (free_blocks m) /\
  m' = with_free_blocks m (free_blocks m ++ [b]).
Proof.
  unfold free_block.
  destruct (b <? 0) eqn:E1; [discriminate|].
  destruct (b >=? num_blocks m) eqn:E2; [discriminate|]. simpl.
  destruct (list_contains b (free_blocks m)) eqn:E; [discriminate|].
  intros H. injection H as _ <-.
  apply list_contains_not_In in E. repeat split; auto; lia.
Qed.

(** C6. [free_block] raises the invalid-index [ValueError] for an
    identifier outside [[0, num_blocks)] and the already-free
    [ValueError] for one that is in the free list, the pool being left as
    it is in both cases; it returns normally only for an identifier that
    is in range and not free, and then appends it to the free list. *)
Theorem free_block_spec (m : BlockManager) (id : Z) :
  ((id < 0 \/ num_blocks m <= id) ->
     free_block m id = (Raise (InvalidBlockIndex id (num_blocks m)), m)) /\
  (0 <= id < num_blocks m -> In id (free_blocks m) ->
     free_block m id = (Raise (AlreadyFree id), m)) /\
  (free_in_range m -> In id (free_blocks m) ->
     free_block m id = (Raise (AlreadyFree id), m)) /\
  (0 <= id < num_blocks m -> ~ In id (free_blocks m) ->
     free_block m id =
       (Ok tt, with_free_blocks m (free_blocks m ++ [id]))) /\
  (forall m', free_block m id = (Ok tt, m') ->
     0 <= id < num_blocks m /\ ~ In id (free_blocks m) /\
     In id (free_blocks m')) /\
  class_of (InvalidBlockIndex id (num_blocks m)) = ValueError /\
  class_of (AlreadyFree id) = ValueError.
Proof.
  split; [apply free_block_invalid|].
  split; [apply free_block_already_free|].
  split; [|split; [apply free_block_fresh|split; [|split; reflexivity]]].
  - intros Hwf Hin. apply free_block_already_free; [now apply Hwf | exact Hin].
  - intros m' H. apply free_block_ok in H. destruct H as (Hr & Hnin & ->).
    repeat split; try assumption; try lia.
    simpl. apply in_or_app. right. now left.
Qed.

Lemma free_block_spec_witness :
  free_block small_pool 2 = (Raise (InvalidBlockIndex 2 2), small_pool) /\
  free_block small_pool 1 = (Raise (AlreadyFree 1), small_pool) /\
  free_block drained_pool 1 =
    (Ok tt, with_free_blocks drained_pool [1]).
Proof.
  split; [|split].
  - apply (proj1 (free_block_spec small_pool 2)). simpl. lia.
  - apply (proj1 (proj2 (proj2 (free_block_spec small_pool 1)))).
    + intros id. simpl. lia.
    + simpl. tauto.
  - apply (proj1 (proj2 (proj2 (proj2 (free_block_spec drained_pool 1))))).
    + simpl. lia.
    + simpl. tauto.
Defined.

End Pool.

(** ** The block table as a dict *)

Section DictFacts.

Lemma dict_contains_get (k : Z) (d : dict) :
  dict_contains k d = true <-> exists v, dict_get k d = Some v.
Proof.
  unfold dict_contains. destruct (dict_get k d) as [v|].
  - split; [now exists v | reflexivity].
  - split; [discriminate | now intros [v Hv]].
Qed.

Lemma dict_contains_false (k : Z) (d : dict) :
  dict_contains k d = false <-> dict_get k d = None.
Proof.
  unfold dict_contains. destruct (dict_get k d); split; congruence.
Qed.

Lemma dict_contains_keys (k : Z) (d : dict) :
  dict_contains k d = true <-> In k (dict_keys d).
Proof.
  unfold dict_contains.
  induction d as [|[k' v] d IH]; simpl.
  - split; [discriminate | tauto].
  - destruct (Z.eqb_spec k k') as [->|Hne].
    + split; [now left | reflexivity].
    + rewrite IH. split; [now right | intros [H|H]; [congruence | exact H]].
Qed.

(** A new key goes to the end of the dict. *)
Lemma dict_set_new (k v : Z) (d : dict) :
  dict_get k d = None -> dict_set k v d = d ++ [(k, v)].
Proof.
  induction d as [|[k' v'] d IH]; simpl; intros H.
  - reflexivity.
  - destruct (k =? k'); [discriminate|]. now rewrite IH.
Qed.

Lemma dict_get_set_same (k v : Z) (d : dict) :
  dict_get k (dict_set k v d) = Some v.
Proof.
  induction d as [|[k' v'] d IH]; simpl.
  - now rewrite Z.eqb_refl.
  - destruct (k =? k') eqn:E; simpl; rewrite ?Z.eqb_refl, ?E; auto.
Qed.

Lemma dict_get_set_other (k v k0 : Z) (d : dict) :
  k0 <> k -> dict_get k0 (dict_set k v d) = dict_get k0 d.
Proof.
  intros Hne. induction d as [|[k' v'] d IH]; simpl.
  - destruct (Z.eqb_spec k0 k); [contradiction | reflexivity].
  - destruct (Z.eqb_spec k k') as [->|Hkk]; simpl.
    + destruct (Z.eqb_spec k0 k'); [contradiction | reflexivity].
    + now rewrite IH.
Qed.

(** Assigning to an absent key leaves every entry that was there. *)
Lemma dict_get_set_keeps (k v k0 v0 : Z) (d : dict) :
  dict_get k d = None -> dict_get k0 d = Some v0 ->
  dict_get k0 (dict_set k v d) = Some v0.
Proof.
  intros Hk Hk0. rewrite dict_get_set_other; [assumption|].
  intros ->. congruence.
Qed.

End DictFacts.

(** ** Single calls on a sequence *)

Section SequenceCalls.

(** What a normal return of [append_token] says about the call. *)
Lemma append_token_ok (s s' : Sequence) (m m' : BlockManager) (u : unit) :
  append_token s m = (Ok u, s', m') ->
  block_size m <> 0 /\
  request_id s' = request_id s /\
  token_count s' = token_count s + 1 /\
  let L := token_count s / block_size m in
  ((dict_contains L (block_table s) = true /\
    block_table s' = block_table s /\ m' = m) \/
   (dict_contains L (block_table s) = false /\
    exists p, allocate_block m = (Ok p, m') /\
              block_table s' = dict_set L p (block_table s))).
Proof.
  unfold append_token.
  destruct (Z.eqb_spec (block_size m) 0) as [|Hbs]; [discriminate|].
  destruct (dict_contains (token_count s / block_size m) (block_table s))
    eqn:Hc; simpl.
  - intros H. injection H as _ <- <-. simpl. intuition.
  - destruct (allocate_block m) as [[p|e] m1] eqn:Ha.
    + intros H. injection H as _ <- <-. simpl.
      repeat split; auto. right. split; [reflexivity|]. now exists p.
    + destruct (class_of e); discriminate.
Qed.

(** What an exception leaving [append_token] says about the call. *)
Lemma append_token_raise (s s' : Sequence) (m m' : BlockManager) (e : exn) :
  append_token s m = (Raise e, s', m') ->
  s' = s /\ m' = m /\
  ((block_size m = 0 /\ e = DivisionByZero) \/
   (block_size m <> 0 /\
    dict_contains (token_count s / block_size m) (block_table s) = false /\
    free_blocks m = [] /\
    e = AllocFailed (request_id s) (token_count s)
          (AllAllocated (num_blocks m)))).
Proof.
  unfold append_token.
  destruct (Z.eqb_spec (block_size m) 0) as [Hbs|Hbs].
  - intros H. injection H as <- <- <-. auto.
  - destruct (dict_contains (token_count s / block_size m) (block_table s))
      eqn:Hc; simpl; [discriminate|].
    destruct (allocate_block_cases m) as [[Hf Ha]|[l [x [Hf Ha]]]];
      rewrite Ha; simpl; [|discriminate].
    intros H. injection H as <- <- <-.
    split; [reflexivity|]. split; [reflexivity|]. right. auto.
Qed.

(** C2. [append_token] is atomic.  When the token needs a new block and
    the pool has none, the call raises a [RuntimeError] that carries the
    request id, the token count and the pool's out-of-blocks error, and
    sequence and pool are as before.  Whatever exception leaves the call,
    sequence and pool are as before.  When the call returns, the token
    count is one higher and the logical block
    [token_count // block_size] (count taken before the call) is in the
    block table. *)
Theorem append_token_atomic (s : Sequence) (m : BlockManager) :
  (block_size m <> 0 ->
   dict_contains (token_count s / block_size m) (block_table s) = false ->
   fst (allocate_block m) = Raise (AllAllocated (num_blocks m)) ->
   append_token s m =
     (Raise (AllocFailed (request_id s) (token_count s)
               (AllAllocated (num_blocks m))), s, m)) /\
  (forall e s' m', append_token s m = (Raise e, s', m') ->
     s' = s /\ m' = m) /\
  (forall s' m', append_token s m = (Ok tt, s', m') ->
     token_count s' = token_count s + 1 /\
     dict_contains (token_count s / block_size m) (block_table s') = true).
Proof.
  split; [|split].
  - intros Hbs Hc Ha. unfold append_token.
    destruct (Z.eqb_spec (block_size m) 0); [contradiction|].
    rewrite Hc. simpl.
    destruct (allocate_block_cases m) as [[Hf Hr]|[l [x [Hf Hr]]]];
      rewrite Hr in *; simpl in *; [reflexivity | discriminate].
  - intros e s' m' H. apply append_token_raise in H. tauto.
  - intros s' m' H. apply append_token_ok in H.
    destruct H as (Hbs & _ & Htc & [(Hc & Ht & _)|(Hc & p & _ & Ht)]).
    + split; [assumption|]. now rewrite Ht.
    + split; [assumption|]. rewrite Ht.
      apply dict_contains_get. exists p. apply dict_get_set_same.
Qed.

Lemma append_token_atomic_witness :
  append_token (Sequence_init "r") drained_pool =
    (Raise (AllocFailed "r" 0 (AllAllocated 2)),
     Sequence_init "r", drained_pool) /\
  (token_count (mkSequence "r" 1 [(0, 1)]) = 0 + 1 /\
   dict_contains (0 / 4) [(0, 1)] = true).
Proof.
  split.
  - apply (proj1 (append_token_atomic (Sequence_init "r") drained_pool)).
    + simpl. lia.
    + reflexivity.
    + reflexivity.
  - apply (proj2 (proj2 (append_token_atomic (Sequence_init "r") small_pool))
             (mkSequence "r" 1 [(0, 1)]) (with_free_blocks small_pool [0])).
    reflexivity.
Defined.

End SequenceCalls.

(** ** Batches of appends *)

Section Batch.

Lemma appended_facts k s m s' m' :
  appended k s m s' m' ->
  token_count s' = token_count s + Z.of_nat k /\
  request_id s' = request_id s /\
  block_size m' = block_size m /\
  num_blocks m' = num_blocks m /\
  (forall L p, dict_get L (block_table s) = Some p ->
               dict_get L (block_table s') = Some p) /\
  (forall j, 0 <= j < Z.of_nat k ->
     dict_contains ((token_count s + j) / block_size m) (block_table s')
       = true).
Proof.
  induction 1 as [s m|k s m s1 m1 s2 m2 Hstep Hrest IH].
  - repeat split; auto; lia.
  - destruct IH as (Htc & Hid & Hbs & Hnb & Hkeep & Hnew).
    apply append_token_ok in Hstep.
    destruct Hstep as (Hnz & Hid1 & Htc1 & Hcases).
    assert (Hm : block_size m1 = block_size m /\ num_blocks m1 = num_blocks m).
    { destruct Hcases as [(_ & _ & ->)|(_ & p & Ha & _)]; [auto|].
      destruct (allocate_block_cases m) as [[_ Hr]|[l [x [_ Hr]]]];
        rewrite Hr in Ha; inversion Ha; auto. }
    destruct Hm as [Hbs1 Hnb1].
    assert (Hkeep1 : forall L p, dict_get L (block_table s) = Some p ->
                                 dict_get L (block_table s1) = Some p).
    { intros L p HL.
      destruct Hcases as [(_ & -> & _)|(Hc & q & _ & ->)]; [assumption|].
      apply dict_contains_false in Hc.
      now apply dict_get_set_keeps. }
    assert (Hhere : dict_contains (token_count s / block_size m)
                      (block_table s1) = true).
    { destruct Hcases as [(Hc & -> & _)|(_ & q & _ & ->)]; [assumption|].
      apply dict_contains_get. exists q. apply dict_get_set_same. }
    repeat split; try congruence; try lia.
    + intros L p HL. auto.
    + intros j Hj.
      destruct (Z.eq_dec j 0) as [->|Hj0].
      * rewrite Z.add_0_r.
        apply dict_contains_get in Hhere. destruct Hhere as [v Hv].
        apply dict_contains_get. exists v. auto.
      * replace (token_count s + j) with (token_count s1 + (j - 1)) by lia.
        rewrite <- Hbs1. apply Hnew. lia.
Qed.

Lemma append_tokens_loop_spec (k : nat) :
  forall s m,
    (exists s' m',
        appended k s m s' m' /\
        append_tokens_loop k s m = (Ok tt, s', m')) \/
    (exists j e s' m',
        (j < k)%nat /\
        appended j s m s' m' /\
        append_token s' m' = (Raise e, s', m') /\
        append_tokens_loop k s m = (Raise e, s', m')).
Proof.
  induction k as [|k IH]; intros s m.
  - left. exists s, m. split; [constructor | reflexivity].
  - simpl. destruct (append_token s m) as [[[[]|e] s1] m1] eqn:Hstep.
    + destruct (IH s1 m1) as [(s' & m' & Happ & Hrun)
                             |(j & e & s' & m' & Hj & Happ & Hfail & Hrun)].
      * left. exists s', m'. split; [econstructor; eassumption | assumption].
      * right. exists (S j), e, s', m'.
        repeat split; try assumption; [lia | econstructor; eassumption].
    + right. exists O, e, s, m.
      destruct (append_token_raise _ _ _ _ _ Hstep) as (-> & -> & _).
      repeat split; try assumption; [lia | constructor].
Qed.

(** Whatever its outcome, [append_tokens] leaves sequence and pool as some
    number of successful appends left them. *)
Lemma append_tokens_appended s m n r s' m' :
  append_tokens s m n = (r, s', m') -> exists k, appended k s m s' m'.
Proof.
  unfold append_tokens. intros H.
  destruct (append_tokens_loop_spec (Z.to_nat n) s m)
    as [(s1 & m1 & Happ & Hrun)
       |(j & e & s1 & m1 & _ & Happ & _ & Hrun)];
    rewrite Hrun in H; injection H as _ <- <-; eauto.
Qed.

(** C8. [append_tokens s m n] makes the calls of [append_token] one after
    the other.  Either all [n] return, or the call number [k + 1] (for
    some [k < n]) is the first to raise: then the exception of that call
    leaves [append_tokens], the sequence and the pool are as the first
    [k] calls left them, the token count has grown by exactly [k], every
    entry the block table had is still there, and the logical block of
    each of the [k] appended tokens is in the block table. *)
Theorem append_tokens_spec (s : Sequence) (m : BlockManager) (n : Z) :
  (exists s' m',
      appended (Z.to_nat n) s m s' m' /\
      append_tokens s m n = (Ok tt, s', m') /\
      token_count s' = token_count s + Z.max 0 n) \/
  (exists k e s' m',
      0 <= k < n /\
      appended (Z.to_nat k) s m s' m' /\
      append_token s' m' = (Raise e, s', m') /\
      append_tokens s m n = (Raise e, s', m') /\
      token_count s' = token_count s + k /\
      (forall L p, dict_get L (block_table s) = Some p ->
                   dict_get L (block_table s') = Some p) /\
      (forall j, 0 <= j < k ->
         dict_contains ((token_count s + j) / block_size m)
           (block_table s') = true)).
Proof.
  unfold append_tokens.
  destruct (append_tokens_loop_spec (Z.to_nat n) s m)
    as [(s' & m' & Happ & Hrun)
       |(j & e & s' & m' & Hj & Happ & Hfail & Hrun)].
  - left. exists s', m'. repeat split; try assumption.
    apply appended_facts in Happ. lia.
  - right. exists (Z.of_nat j), e, s', m'.
    rewrite Nat2Z.id.
    destruct (appended_facts _ _ _ _ _ Happ) as (Htc & _ & _ & _ & Hk & Hn).
    repeat split; try assumption; lia.
Qed.

Lemma append_tokens_spec_witness :
  token_count (mkSequence "r" 8 [(0, 1); (1, 0)]) = 0 + 8 /\
  dict_contains ((0 + 7) / 4) [(0, 1); (1, 0)] = true.
Proof.
  destruct (append_tokens_spec (Sequence_init "r") small_pool 12)
    as [(s' & m' & _ & Hrun & _)
       |(k & e & s' & m' & Hk & _ & _ & Hrun & Htc & _ & Hnew)].
  - discriminate Hrun.
  - injection Hrun as _ <- _. simpl in Htc.
    assert (Hk8 : k = 8) by lia. subst k.
    split; [reflexivity|]. apply (Hnew 7). lia.
Defined.

(** Scenario B of the driver: with 20 blocks left, a request for 480
    tokens stops at token 320 and keeps its 20 blocks. *)
Example scenario_B :
  let '(_, _, m1) := append_tokens (Sequence_init "seq_1") demo_manager 640 in
  let '(_, _, m2) := append_tokens (Sequence_init "seq_2") m1 640 in
  let '(r, s3, m3) := append_tokens (Sequence_init "seq_3") m2 480 in
  get_num_free_blocks m2 = 20 /\
  r = Raise (AllocFailed "seq_3" 320 (AllAllocated 100)) /\
  token_count s3 = 320 /\ get_num_blocks s3 = 20 /\
  get_num_free_blocks m3 = 0.
Proof. vm_compute. repeat split. Qed.

End Batch.

(** ** Releasing a sequence *)

Section ReleaseAll.

Lemma released_facts ids m m' :
  released ids m m' ->
  m' = with_free_blocks m (free_blocks m ++ ids) /\
  NoDup ids /\
  (forall b, In b ids -> 0 <= b < num_blocks m /\ ~ In b (free_blocks m)).
Proof.
  induction 1 as [m|b ids m m1 m2 Hb Hrest IH].
  - rewrite app_nil_r, with_free_blocks_same.
    split; [reflexivity|]. split; [constructor|]. intros b [].
  - apply free_block_ok in Hb. destruct Hb as (Hr & Hnin & ->).
    destruct IH as (-> & Hnd & Hall). simpl in *.
    split; [now rewrite <- app_assoc|].
    split.
    + constructor; [|assumption].
      intros Hin. apply Hall in Hin. destruct Hin as [_ Hin].
      apply Hin. apply in_or_app. right. now left.
    + intros x [<-|Hx]; [auto|].
      destruct (Hall x Hx) as [Hxr Hxn]. split; [assumption|].
      intros Hin. apply Hxn. apply in_or_app. now left.
Qed.

(** The loop of [free_all_blocks]: either every release returns, or the
    releases before the first failing one have been made and its
    exception leaves the loop. *)
Lemma free_blocks_loop_spec (ids : list Z) :
  forall m,
    (exists m', released ids m m' /\ free_blocks_loop ids m = (Ok tt, m')) \/
    (exists pre b post e m',
        ids = pre ++ b :: post /\
        released pre m m' /\
        free_block m' b = (Raise e, m') /\
        free_blocks_loop ids m = (Raise e, m')).
Proof.
  induction ids as [|b ids IH]; intros m.
  - left. exists m. split; [constructor | reflexivity].
  - simpl. destruct (free_block m b) as [[[]|e] m1] eqn:Hb.
    + destruct (IH m1) as [(m' & Hrel & Hrun)
                          |(pre & c & post & e & m' & -> & Hrel & Hc & Hrun)].
      * left. exists m'. split; [econstructor; eassumption | assumption].
      * right. exists (b :: pre), c, post, e, m'.
        repeat split; try assumption. econstructor; eassumption.
    + right. exists [], b, ids, e, m.
      pose proof (free_block_raise _ _ _ _ Hb) as ->.
      repeat split; try assumption. constructor.
Qed.

Lemma released_not_prefix pre b post e m m1 m2 :
  released pre m m1 -> free_block m1 b = (Raise e, m1) ->
  ~ released (pre ++ b :: post) m m2.
Proof.
  intros Hpre. revert m2. induction Hpre as [m|c ids m ma mb Hc Hrest IH];
    intros m2 Hb Hall; simpl in Hall;
    inversion Hall as [|? ? ? mx ? Hc' Hrest']; subst.
  - congruence.
  - assert (ma = mx) by congruence. subst. eapply IH; eassumption.
Qed.

(** The two ways [free_all_blocks] can end. *)
Lemma free_all_blocks_cases (s : Sequence) (m : BlockManager) :
  (exists m', released (dict_values (block_table s)) m m' /\
              free_all_blocks s m = (Ok tt, cleared s, m')) \/
  (exists pre b post e m',
      dict_values (block_table s) = pre ++ b :: post /\
      released pre m m' /\
      free_block m' b = (Raise e, m') /\
      free_all_blocks s m = (Raise e, s, m') /\
      block_table s <> []).
Proof.
  unfold free_all_blocks.
  destruct (free_blocks_loop_spec (dict_values (block_table s)) m)
    as [(m' & Hrel & Hrun)
       |(pre & b & post & e & m' & Hids & Hrel & Hb & Hrun)].
  - left. exists m'. rewrite Hrun. auto.
  - right. exists pre, b, post, e, m'. rewrite Hrun.
    repeat split; try assumption.
    intros Hnil. unfold dict_values in Hids. rewrite Hnil in Hids.
    now destruct pre.
Qed.

(** C9. [free_all_blocks] clears the block table and resets the token
    count exactly when every single [free_block] returned.  When one of
    them raises, its exception leaves [free_all_blocks], the blocks
    before it have gone back to the pool, and the sequence is untouched:
    token count and every entry of the block table, so also the entries
    of the blocks not yet released, are as before. *)
Theorem free_all_blocks_spec (s : Sequence) (m : BlockManager) :
  let ids := dict_values (block_table s) in
  ((exists m', released ids m m' /\
               free_all_blocks s m = (Ok tt, cleared s, m')) \/
   (exists pre b post e m',
       ids = pre ++ b :: post /\
       released pre m m' /\
       free_block m' b = (Raise e, m') /\
       free_all_blocks s m = (Raise e, s, m') /\
       block_table s <> [])) /\
  (forall r s' m', free_all_blocks s m = (r, s', m') ->
     ((exists m2, released ids m m2) <-> r = Ok tt) /\
     ((exists m2, released ids m m2) <-> block_table s' = []) /\
     (r = Ok tt -> token_count s' = 0) /\
     (r <> Ok tt -> s' = s)).
Proof.
  intros ids. pose proof (free_all_blocks_cases s m) as Hmain. fold ids in Hmain.
  split; [exact Hmain|].
  intros r s' m' Hrun.
  destruct Hmain as [(m1 & Hrel & Hok)
                    |(pre & b & post & e & m1 & Hids & Hrel & Hb & Hfail & Hne)].
  - rewrite Hok in Hrun. injection Hrun as <- <- <-. simpl.
    repeat split; auto; try (intros _; now exists m1). congruence.
  - rewrite Hfail in Hrun. injection Hrun as <- <- <-.
    assert (Hnot : ~ exists m2, released ids m m2).
    { intros [m2 Hall]. rewrite Hids in Hall.
      exact (released_not_prefix _ _ _ _ _ _ _ Hrel Hb Hall). }
    repeat split; try tauto; try discriminate.
Qed.

Lemma free_all_blocks_spec_witness :
  ((exists m2, released [1; 0] stale_pool m2) <->
     Raise (AlreadyFree 0) = Ok tt) /\
  ((exists m2, released [1; 0] stale_pool m2) <->
     block_table stale_sequence = []) /\
  (Raise (AlreadyFree 0) = Ok tt -> token_count stale_sequence = 0) /\
  (Raise (AlreadyFree 0) <> Ok tt -> stale_sequence = stale_sequence).
Proof.
  apply (proj2 (free_all_blocks_spec stale_sequence stale_pool)
           (Raise (AlreadyFree 0)) stale_sequence
           (with_free_blocks small_pool [0; 1])).
  reflexivity.
Defined.

(** C10. When a release raises inside [free_all_blocks] after the
    entries before it were released, the block table still holds those
    entries: their blocks are in the free list and in the block table at
    once, and, if there is at least one, calling [free_all_blocks] again
    raises the already-free [ValueError] for the first entry of the
    table. *)
Theorem free_all_blocks_partial
    (s s' : Sequence) (m m' : BlockManager) (e : exn)
    (Hfail : free_all_blocks s m = (Raise e, s', m')) :
  exists pre b post,
    dict_values (block_table s) = pre ++ b :: post /\
    released pre m m' /\
    free_block m' b = (Raise e, m') /\
    s' = s /\
    (forall x, In x pre ->
       In x (free_blocks m') /\ In x (dict_values (block_table s'))) /\
    (forall b0, hd_error pre = Some b0 ->
       hd_error (dict_values (block_table s')) = Some b0 /\
       free_all_blocks s' m' = (Raise (AlreadyFree b0), s', m')).
Proof.
  destruct (free_all_blocks_cases s m)
                   as [(m1 & _ & Hok)
                     |(pre & b & post & e1 & m1 & Hids & Hrel & Hb & Hrun & _)].
  - rewrite Hok in Hfail. discriminate.
  - rewrite Hrun in Hfail. injection Hfail as <- <- <-.
    exists pre, b, post.
    destruct (released_facts _ _ _ Hrel) as (Hm1 & _ & Hpre).
    assert (Hin : forall x, In x pre -> In x (free_blocks m1)).
    { intros x Hx. rewrite Hm1. simpl. apply in_or_app. now right. }
    repeat split; try assumption.
    + now apply Hin.
    + rewrite Hids. apply in_or_app. now left.
    + rewrite Hids. destruct pre; [discriminate | assumption].
    + destruct pre as [|c pre]; [discriminate|].
      simpl in H. injection H as ->.
      assert (Hr : 0 <= b0 < num_blocks m1).
      { rewrite Hm1. simpl. apply Hpre. now left. }
      unfold free_all_blocks. rewrite Hids. simpl.
      rewrite (free_block_already_free m1 b0 Hr (Hin b0 (or_introl eq_refl))).
      reflexivity.
Qed.

Example stale_release_twice :
  free_all_blocks stale_sequence stale_pool =
    (Raise (AlreadyFree 0), stale_sequence,
     with_free_blocks small_pool [0; 1]) /\
  free_all_blocks stale_sequence (with_free_blocks small_pool [0; 1]) =
    (Raise (AlreadyFree 1), stale_sequence,
     with_free_blocks small_pool [0; 1]).
Proof. split; reflexivity. Qed.

Lemma free_all_blocks_partial_witness :
  exists pre b post,
    dict_values (block_table stale_sequence) = pre ++ b :: post /\
    released pre stale_pool (with_free_blocks small_pool [0; 1]) /\
    free_block (with_free_blocks small_pool [0; 1]) b =
      (Raise (AlreadyFree 0), with_free_blocks small_pool [0; 1]) /\
    stale_sequence = stale_sequence /\
    (forall x, In x pre ->
       In x (free_blocks (with_free_blocks small_pool [0; 1])) /\
       In x (dict_values (block_table stale_sequence))) /\
    (forall b0, hd_error pre = Some b0 ->
       hd_error (dict_values (block_table stale_sequence)) = Some b0 /\
       free_all_blocks stale_sequence (with_free_blocks small_pool [0; 1]) =
         (Raise (AlreadyFree b0), stale_sequence,
          with_free_blocks small_pool [0; 1])).
Proof.
  apply (free_all_blocks_partial stale_sequence stale_sequence stale_pool
           (with_free_blocks small_pool [0; 1]) (AlreadyFree 0)).
  reflexivity.
Defined.

End ReleaseAll.

(** ** The life of one sequence *)

Section Life.

Lemma after_calls_snoc s cs c :
  after_calls s (cs ++ [c]) = do_call (after_calls s cs) c.
Proof. unfold after_calls. now rewrite fold_left_app. Qed.

Lemma calls_on_snoc bs cs c :
  calls_on bs (cs ++ [c]) ->
  calls_on bs cs /\ block_size (call_pool c) = bs.
Proof.
  unfold calls_on. intros H. apply Forall_app in H. destruct H as [H1 H2].
  split; [assumption | now inversion H2].
Qed.

(** The three ways a call can leave a sequence: as it was, cleared, or
    one token longer (with or without a new block). *)
Lemma do_call_cases (s : Sequence) (c : call) :
  do_call s c = s \/
  do_call s c = cleared s \/
  (exists m u m',
      c = Append m /\ append_token s m = (Ok u, do_call s c, m')).
Proof.
  destruct c as [m|m]; simpl.
  - destruct (append_token s m) as [[[u|e] s1] m1] eqn:H.
    + right. right. exists m, u, m1. auto.
    + left. simpl. now apply append_token_raise in H.
  - destruct (free_all_blocks_cases s m) as [(m1 & _ & H)|H].
    + right. left. now rewrite H.
    + destruct H as (pre & b & post & e & m1 & _ & _ & _ & H & _).
      left. now rewrite H.
Qed.

Lemma range_succ (n : Z) : 0 <= n -> range (n + 1) = range n ++ [n].
Proof.
  intros Hn. unfold range.
  replace (Z.to_nat (n + 1)) with (S (Z.to_nat n)) by lia.
  rewrite seq_S, map_app. simpl. now rewrite Z2Nat.id.
Qed.

Lemma ceil_div_bounds (a b : Z) :
  0 < b -> (ceil_div a b - 1) * b < a <= ceil_div a b * b.
Proof.
  intros Hb. unfold ceil_div.
  pose proof (Z.div_mod (a + b - 1) b ltac:(lia)) as Hdm.
  pose proof (Z.mod_pos_bound (a + b - 1) b Hb) as Hmod.
  nia.
Qed.

Lemma ceil_div_unique (a b q : Z) :
  0 < b -> (q - 1) * b < a <= q * b -> q = ceil_div a b.
Proof.
  intros Hb Hq. pose proof (ceil_div_bounds a b Hb). nia.
Qed.

Lemma ceil_div_succ (a b : Z) :
  0 < b -> ceil_div (a + 1) b = a / b + 1.
Proof.
  intros Hb. symmetry. apply ceil_div_unique; [assumption|].
  pose proof (Z.div_mod a b ltac:(lia)) as Hdm.
  pose proof (Z.mod_pos_bound a b Hb) as Hmod.
  nia.
Qed.

Lemma dict_keys_app (d1 d2 : dict) :
  dict_keys (d1 ++ d2) = dict_keys d1 ++ dict_keys d2.
Proof. apply map_app. Qed.

Lemma tiled_do_call (bs : Z) (s : Sequence) (c : call) :
  0 < bs -> block_size (call_pool c) = bs ->
  tiled bs s -> tiled bs (do_call s c).
Proof.
  intros Hbs Hc [Htc Hkeys].
  destruct (do_call_cases s c) as [->|[->|(m & u & m' & -> & H)]].
  - now split.
  - split; simpl; [lia|].
    unfold ceil_div. rewrite Z.div_small by lia. reflexivity.
  - simpl in Hc. apply append_token_ok in H.
    destruct H as (_ & _ & Htc' & Hcase). rewrite Hc in Hcase.
    set (s' := do_call s (Append m)) in *.
    split; [lia|]. rewrite Htc', (ceil_div_succ _ _ Hbs).
    pose proof (ceil_div_bounds (token_count s) bs Hbs) as Hcd.
    pose proof (Z.div_mod (token_count s) bs ltac:(lia)) as Hdm.
    pose proof (Z.mod_pos_bound (token_count s) bs Hbs) as Hmod.
    destruct Hcase as [(Hin & -> & _)|(Hnin & p & _ & ->)].
    + apply dict_contains_keys in Hin. rewrite Hkeys in Hin.
      apply range_In in Hin. rewrite Hkeys. f_equal. nia.
    + assert (Hn : ~ In (token_count s / bs) (dict_keys (block_table s))).
      { intros Hin. apply dict_contains_keys in Hin. congruence. }
      rewrite Hkeys, range_In in Hn.
      apply dict_contains_false in Hnin.
      rewrite (dict_set_new _ _ _ Hnin), dict_keys_app, Hkeys. simpl.
      assert (Heq : ceil_div (token_count s) bs = token_count s / bs) by nia.
      rewrite Heq. symmetry. apply range_succ. nia.
Qed.

Lemma tiled_after_calls (bs : Z) (rid : string) (cs : list call) :
  0 < bs -> calls_on bs cs ->
  tiled bs (after_calls (Sequence_init rid) cs).
Proof.
  intros Hbs. induction cs as [|c cs IH] using rev_ind; intros Hcs.
  - split; simpl; [lia|].
    unfold ceil_div. rewrite Z.div_small by lia. reflexivity.
  - apply calls_on_snoc in Hcs. destruct Hcs as [Hcs Hc].
    rewrite after_calls_snoc. apply tiled_do_call; auto.
Qed.

(** With block size 0 every [append_token] raises [ZeroDivisionError]: the
    sequence never leaves its initial state. *)
Lemma zero_block_size_stays_empty (rid : string) (cs : list call) :
  calls_on 0 cs -> after_calls (Sequence_init rid) cs = Sequence_init rid.
Proof.
  induction cs as [|c cs IH] using rev_ind; intros Hcs; [reflexivity|].
  apply calls_on_snoc in Hcs. destruct Hcs as [Hcs Hc].
  rewrite after_calls_snoc, (IH Hcs).
  destruct (do_call_cases (Sequence_init rid) c)
    as [->|[->|(m & u & m' & -> & H)]]; try reflexivity.
  apply append_token_ok in H. simpl in Hc. tauto.
Qed.

(** C4. For a sequence that started empty and has lived through any
    calls of [append_token] and [free_all_blocks] on pools of block size
    [bs > 0], [get_num_blocks] is the ceiling of
    [token_count / bs] (the least [q] with [token_count <= q * bs]), and
    a logical index is a key of the block table exactly when some token
    of the sequence lies in that logical block. *)
Theorem block_count_is_ceiling
    (bs : Z) (rid : string) (cs : list call)
    (Hbs : 0 < bs) (Hcs : calls_on bs cs) :
  let s := after_calls (Sequence_init rid) cs in
  get_num_blocks s = ceil_div (token_count s) bs /\
  (get_num_blocks s - 1) * bs < token_count s <= get_num_blocks s * bs /\
  (forall L, dict_contains L (block_table s) = true <->
             exists k, 0 <= k < token_count s /\ k / bs = L).
Proof.
  intros s.
  destruct (tiled_after_calls bs rid cs Hbs Hcs) as [Htc Hkeys].
  fold s in Htc, Hkeys.
  pose proof (ceil_div_bounds (token_count s) bs Hbs) as Hcd.
  assert (Hlen : get_num_blocks s = ceil_div (token_count s) bs).
  { unfold get_num_blocks.
    rewrite <- (length_map fst (block_table s)).
    fold (dict_keys (block_table s)). rewrite Hkeys, range_length. nia. }
  split; [exact Hlen|]. split; [now rewrite Hlen|].
  intros L. rewrite dict_contains_keys, Hkeys, range_In. split.
  - intros HL. exists (L * bs). split; [nia|].
    now apply Z.div_mul, Z.neq_sym, Z.lt_neq.
  - intros (k & Hk & <-).
    pose proof (Z.div_mod k bs ltac:(lia)) as Hdm.
    pose proof (Z.mod_pos_bound k bs Hbs) as Hmod.
    nia.
Qed.

Lemma calls_on_life_of_six : calls_on 4 life_of_six.
Proof. repeat constructor. Qed.

Example life_of_six_value :
  after_calls (Sequence_init "r") life_of_six =
    mkSequence "r" 6 [(0, 1); (1, 0)].
Proof. reflexivity. Qed.

Lemma block_count_is_ceiling_witness :
  let s := after_calls (Sequence_init "r") life_of_six in
  get_num_blocks s = ceil_div (token_count s) 4 /\
  (get_num_blocks s - 1) * 4 < token_count s <= get_num_blocks s * 4 /\
  (forall L, dict_contains L (block_table s) = true <->
             exists k, 0 <= k < token_count s /\ k / 4 = L).
Proof.
  apply (block_count_is_ceiling 4 "r" life_of_six).
  - lia.
  - exact calls_on_life_of_six.
Defined.

End Life.

(** ** Translation of token positions *)

Section Translate.

Lemma is_prefix_snoc {A : Type} (p l : list A) (c : A) :
  is_prefix p (l ++ [c]) -> is_prefix p l \/ p = l ++ [c].
Proof.
  intros [rest Hrest].
  destruct rest as [|x rest _] using rev_ind.
  - right. now rewrite app_nil_r in Hrest.
  - left. rewrite app_assoc in Hrest.
    apply app_inj_tail in Hrest. destruct Hrest as [-> _].
    now exists rest.
Qed.

Lemma first_touch_extend bs s0 cs c L p :
  first_touch bs s0 cs L p ->
  dict_get L (block_table (after_calls s0 (cs ++ [c]))) = Some p ->
  first_touch bs s0 (cs ++ [c]) L p.
Proof.
  intros (cs1 & m1 & m1' & cs2 & -> & Htc & Hnew & Ha & Hkeep) Hnow.
  exists cs1, m1, m1', (cs2 ++ [c]).
  split; [now rewrite <- app_assoc|].
  repeat split; try assumption.
  intros pre Hpre. apply is_prefix_snoc in Hpre.
  destruct Hpre as [Hpre| ->]; [now apply Hkeep|].
  rewrite <- app_assoc in Hnow. exact Hnow.
Qed.

Lemma first_touch_after_calls (bs : Z) (rid : string) (cs : list call) :
  calls_on bs cs ->
  forall L p,
    dict_get L (block_table (after_calls (Sequence_init rid) cs)) = Some p ->
    first_touch bs (Sequence_init rid) cs L p.
Proof.
  induction cs as [|c cs IH] using rev_ind; intros Hcs L p Hget.
  - discriminate.
  - apply calls_on_snoc in Hcs. destruct Hcs as [Hcs Hc].
    specialize (IH Hcs L p).
    pose proof Hget as Hnow. rewrite after_calls_snoc in Hget.
    set (s := after_calls (Sequence_init rid) cs) in *.
    destruct (do_call_cases s c) as [Hs|[Hs|(m & u & m' & -> & H)]].
    + rewrite Hs in Hget. apply first_touch_extend; auto.
    + rewrite Hs in Hget. discriminate.
    + simpl in Hc. apply append_token_ok in H.
      destruct H as (_ & _ & _ & Hcase). rewrite Hc in Hcase.
      destruct Hcase as [(_ & Ht & _)|(Hnin & q & Ha & Ht)];
        rewrite Ht in Hget.
      * apply first_touch_extend; auto.
      * destruct (Z.eq_dec L (token_count s / bs)) as [->|Hne].
        -- rewrite dict_get_set_same in Hget. injection Hget as ->.
           exists cs, m, m', [].
           repeat split; try assumption.
           intros pre [rest Hrest]. symmetry in Hrest.
           apply app_eq_nil in Hrest. destruct Hrest as [-> _].
           exact Hnow.
        -- rewrite dict_get_set_other in Hget by assumption.
           apply first_touch_extend; auto.
Qed.

Lemma covered_do_call (bs : Z) (s : Sequence) (c : call) :
  block_size (call_pool c) = bs -> covered bs s -> covered bs (do_call s c).
Proof.
  intros Hc (Htc & Hnz & Hcov).
  destruct (do_call_cases s c) as [->|[->|(m & u & m' & -> & H)]].
  - now repeat split.
  - repeat split; simpl; lia.
  - simpl in Hc. apply append_token_ok in H.
    destruct H as (Hbs & _ & Htc' & Hcase). rewrite Hc in Hcase, Hbs.
    set (s' := do_call s (Append m)) in *.
    repeat split; [lia | auto |].
    intros k Hk. rewrite Htc' in Hk.
    destruct (Z.eq_dec k (token_count s)) as [->|Hne].
    + destruct Hcase as [(Hin & -> & _)|(_ & p & _ & ->)]; [assumption|].
      apply dict_contains_get. exists p. apply dict_get_set_same.
    + assert (Hold : dict_contains (k / bs) (block_table s) = true)
        by (apply Hcov; lia).
      destruct Hcase as [(_ & -> & _)|(Hnin & p & _ & ->)]; [assumption|].
      apply dict_contains_get in Hold. destruct Hold as [v Hv].
      apply dict_contains_false in Hnin.
      apply dict_contains_get. exists v. now apply dict_get_set_keeps.
Qed.

Lemma covered_after_calls (bs : Z) (rid : string) (cs : list call) :
  calls_on bs cs -> covered bs (after_calls (Sequence_init rid) cs).
Proof.
  induction cs as [|c cs IH] using rev_ind; intros Hcs.
  - repeat split; simpl; lia.
  - apply calls_on_snoc in Hcs. destruct Hcs as [Hcs Hc].
    rewrite after_calls_snoc. apply covered_do_call; auto.
Qed.

(** C3.  Let [s] be a sequence that started empty and has lived through
    any calls on pools of one block size, and [m] such a pool.  For
    every [k] with [0 <= k < token_count],
    [get_physical_block s k m] returns the offset [k mod block_size]
    and the identifier [p] that the pool handed out in the call of
    [append_token] that first touched logical block [k // block_size];
    the entry has been [p] after every call since.  For [k] negative or
    [>= token_count] the call raises the invalid-token-index
    [ValueError].  For any sequence state [t] whatever, an index in
    range whose logical block is not a key of the table raises the
    block-not-found [ValueError] (the block size being nonzero, so that
    a logical index is computed at all). *)
Theorem translate_spec
    (bs : Z) (rid : string) (cs : list call) (m : BlockManager)
    (Hcs : calls_on bs cs) (Hm : block_size m = bs) :
  let s := after_calls (Sequence_init rid) cs in
  (forall k, 0 <= k < token_count s ->
     exists p,
       get_physical_block s k m = Ok (p, k mod bs) /\
       first_touch bs (Sequence_init rid) cs (k / bs) p) /\
  (forall (t : Sequence) k, k < 0 \/ token_count t <= k ->
     get_physical_block t k m =
       Raise (InvalidTokenIndex k (token_count t))) /\
  (forall (t : Sequence) k, 0 <= k < token_count t -> bs <> 0 ->
     dict_contains (k / bs) (block_table t) = false ->
     get_physical_block t k m = Raise (LogicalBlockNotFound (k / bs) k)).
Proof.
  intros s. split; [|split].
  - intros k Hk.
    destruct (covered_after_calls bs rid cs Hcs) as (_ & Hnz & Hcov).
    fold s in Hnz, Hcov.
    specialize (Hcov k Hk). apply dict_contains_get in Hcov.
    destruct Hcov as [p Hp]. exists p. split.
    + unfold get_physical_block. rewrite Hm.
      destruct (k <? 0) eqn:E1; [lia|].
      destruct (k >=? token_count s) eqn:E2; [lia|]. simpl.
      destruct (Z.eqb_spec bs 0) as [Hz|_]; [exfalso; apply Hnz; lia|].
      now rewrite Hp.
    + now apply first_touch_after_calls.
  - intros t k Hk. unfold get_physical_block.
    destruct (k <? 0) eqn:E1; [reflexivity|].
    destruct (k >=? token_count t) eqn:E2; [reflexivity|]. lia.
  - intros t k Hk Hbs Hnin. unfold get_physical_block. rewrite Hm.
    destruct (k <? 0) eqn:E1; [lia|].
    destruct (k >=? token_count t) eqn:E2; [lia|]. simpl.
    destruct (Z.eqb_spec bs 0) as [|_]; [contradiction|].
    apply dict_contains_false in Hnin. now rewrite Hnin.
Qed.

Lemma translate_spec_witness :
  let s := after_calls (Sequence_init "r") life_of_six in
  (forall k, 0 <= k < token_count s ->
     exists p,
       get_physical_block s k small_pool = Ok (p, k mod 4) /\
       first_touch 4 (Sequence_init "r") life_of_six (k / 4) p) /\
  (forall (t : Sequence) k, k < 0 \/ token_count t <= k ->
     get_physical_block t k small_pool =
       Raise (InvalidTokenIndex k (token_count t))) /\
  (forall (t : Sequence) k, 0 <= k < token_count t -> 4 <> 0 ->
     dict_contains (k / 4) (block_table t) = false ->
     get_physical_block t k small_pool =
       Raise (LogicalBlockNotFound (k / 4) k)).
Proof.
  apply (translate_spec 4 "r" life_of_six small_pool).
  - exact calls_on_life_of_six.
  - reflexivity.
Defined.

End Translate.

(** ** A sequence alone on a pool *)

Section RoundTrip.

Lemma append_token_total s m r s' m' :
  append_token s m = (r, s', m') ->
  blocks_total s' m' = blocks_total s m.
Proof.
  destruct r as [u|e]; intros H.
  - apply append_token_ok in H.
    destruct H as (_ & _ & _ & [(_ & Ht & ->)|(Hnin & p & Ha & Ht)]);
      unfold blocks_total; rewrite Ht; [reflexivity|].
    apply dict_contains_false in Hnin. rewrite (dict_set_new _ _ _ Hnin).
    destruct (allocate_block_cases m) as [[_ Hr]|[l [x [Hf Hr]]]];
      rewrite Hr in Ha; [discriminate|].
    injection Ha as _ <-. simpl. rewrite Hf, !length_app. simpl. lia.
  - apply append_token_raise in H. now destruct H as (-> & -> & _).
Qed.

Lemma appended_total k s m s' m' :
  appended k s m s' m' -> blocks_total s' m' = blocks_total s m.
Proof.
  induction 1 as [|k s m s1 m1 s2 m2 Hstep _ IH]; [reflexivity|].
  rewrite IH. eapply append_token_total; eassumption.
Qed.

Lemma do_grow_total st g :
  blocks_total (fst (do_grow st g)) (snd (do_grow st g)) =
  blocks_total (fst st) (snd st).
Proof.
  destruct st as [s m], g as [|n]; simpl.
  - destruct (append_token s m) as [[r s'] m'] eqn:H. simpl.
    eapply append_token_total; eassumption.
  - destruct (append_tokens s m n) as [[r s'] m'] eqn:H. simpl.
    apply append_tokens_appended in H. destruct H as [k Happ].
    eapply appended_total; eassumption.
Qed.

Lemma grown_total gs :
  forall s m,
    blocks_total (fst (grown s m gs)) (snd (grown s m gs)) =
    blocks_total s m.
Proof.
  unfold grown.
  induction gs as [|g gs IH] using rev_ind; intros s m; [reflexivity|].
  rewrite fold_left_app. simpl. rewrite do_grow_total. apply IH.
Qed.

(** C7, as the code has it.  A sequence starts empty on a pool [P] and
    grows by any calls of [append_token] and [append_tokens] on that pool,
    nothing else allocating from or releasing to the pool meanwhile.  If
    [free_all_blocks] then returns, [get_num_free_blocks] is what it was
    for [P] before the first allocation, and [get_num_blocks] of the
    sequence is 0. *)
Theorem release_all_round_trip
    (P : BlockManager) (rid : string) (gs : list grow)
    (s s' : Sequence) (m m' : BlockManager)
    (Hgrown : grown (Sequence_init rid) P gs = (s, m))
    (Hfree : free_all_blocks s m = (Ok tt, s', m')) :
  get_num_free_blocks m' = get_num_free_blocks P /\
  get_num_blocks s' = 0.
Proof.
  pose proof (grown_total gs (Sequence_init rid) P) as Htot.
  rewrite Hgrown in Htot. unfold blocks_total in Htot. simpl in Htot.
  destruct (free_all_blocks_cases s m) as [(m1 & Hrel & Hok)|Hbad].
  - rewrite Hok in Hfree. injection Hfree as <- <-.
    apply released_facts in Hrel. destruct Hrel as (-> & _).
    unfold get_num_free_blocks, get_num_blocks, dict_values. simpl.
    rewrite length_app, length_map. split; [lia | reflexivity].
  - destruct Hbad as (pre & b & post & e & m1 & _ & _ & _ & Hr & _).
    rewrite Hr in Hfree. discriminate.
Qed.

Lemma release_all_round_trip_witness :
  get_num_free_blocks (with_free_blocks small_pool [1; 0]) =
    get_num_free_blocks small_pool /\
  get_num_blocks (mkSequence "r" 0 []) = 0.
Proof.
  apply (release_all_round_trip small_pool "r" [GrowToken; GrowTokens 4]
           (mkSequence "r" 5 [(0, 1); (1, 0)]) (mkSequence "r" 0 [])
           drained_pool (with_free_blocks small_pool [1; 0])).
  - reflexivity.
  - reflexivity.
Defined.

(** C7 as worded fails on the code: the free count comes back only if the
    sequence was alone on the pool.  On a pool of two blocks, [a] takes a
    block, its neighbour [b] takes the other, and releasing [a] leaves one
    free block where [P] had two. *)
Lemma round_trip_counterexample : ~ round_trip_as_worded.
Proof.
  intros H.
  specialize (H small_pool "a"
                [NewSequence "b"; AppendToken 0; AppendToken 1]
                (mkSequence "a" 1 [(0, 1)]) (mkSequence "a" 0 [])
                (with_free_blocks small_pool [1]) eq_refl eq_refl).
  destruct H as [H _]. vm_compute in H. discriminate.
Qed.

(** Two sequences of 40 blocks each; releasing the first brings the free
    count from 20 back to 60 when nothing else has used the pool
    meanwhile. *)
Example scenario_C :
  let '(_, s1, m1) := append_tokens (Sequence_init "seq_1") demo_manager 640 in
  let '(_, _, m2) := append_tokens (Sequence_init "seq_2") m1 640 in
  let '(r, s1', m3) := free_all_blocks s1 m2 in
  r = Ok tt /\ get_num_free_blocks m3 = 60 /\ get_num_blocks s1' = 0.
Proof. vm_compute. repeat split. Qed.

End RoundTrip.

(** ** Several sequences on one pool: the invariant *)

Section Ownership.

Lemma set_nth_split {A : Type} (l : list A) (i : nat) (a b : A) :
  nth_error l i = Some a ->
  exists l1 l2, l = l1 ++ a :: l2 /\ set_nth i b l = l1 ++ b :: l2.
Proof.
  revert i. induction l as [|h t IH]; intros [|i] H; simpl in H;
    try discriminate.
  - injection H as ->. now exists [], t.
  - destruct (IH i H) as (l1 & l2 & -> & Hset).
    exists (h :: l1), l2. simpl. now rewrite Hset.
Qed.

Lemma table_ids_new (k v : Z) (d : dict) :
  dict_get k d = None ->
  dict_values (dict_set k v d) = dict_values d ++ [v].
Proof.
  intros H. rewrite (dict_set_new _ _ _ H). unfold dict_values.
  now rewrite map_app.
Qed.

Lemma perm_regroup (f h t1 v t2 : list Z) :
  Permutation (f ++ h ++ t1 ++ v ++ t2) ((f ++ v) ++ (h ++ t1) ++ t2).
Proof.
  rewrite <- (app_assoc f v). apply Permutation_app_head.
  rewrite (app_assoc h t1). apply Permutation_app_swap_app.
Qed.

Lemma local_move_refl s m : local_move s m s m.
Proof. split; [apply Permutation_refl | reflexivity]. Qed.

Lemma local_move_trans s m s1 m1 s2 m2 :
  local_move s m s1 m1 -> local_move s1 m1 s2 m2 -> local_move s m s2 m2.
Proof.
  intros [P1 N1] [P2 N2]. split; [|congruence].
  eapply Permutation_trans; eassumption.
Qed.

Lemma append_token_local s m r s' m' :
  append_token s m = (r, s', m') -> local_move s m s' m'.
Proof.
  destruct r as [u|e]; intros H.
  - apply append_token_ok in H.
    destruct H as (_ & _ & _ & [(_ & Ht & ->)|(Hnin & p & Ha & Ht)]);
      unfold local_move, table_ids; rewrite Ht.
    + split; [apply Permutation_refl | reflexivity].
    + apply dict_contains_false in Hnin. rewrite (table_ids_new _ _ _ Hnin).
      destruct (allocate_block_cases m) as [[_ Hr]|[l [x [Hf Hr]]]];
        rewrite Hr in Ha; [discriminate|].
      injection Ha as <- <-. simpl. rewrite Hf. split; [|reflexivity].
      rewrite <- app_assoc. apply Permutation_app_head.
      apply Permutation_app_comm.
  - apply append_token_raise in H. destruct H as (-> & -> & _).
    apply local_move_refl.
Qed.

Lemma appended_local k s m s' m' :
  appended k s m s' m' -> local_move s m s' m'.
Proof.
  induction 1 as [|k s m s1 m1 s2 m2 Hstep _ IH]; [apply local_move_refl|].
  eapply local_move_trans; [|exact IH].
  eapply append_token_local; eassumption.
Qed.

Lemma append_tokens_local s m n r s' m' :
  append_tokens s m n = (r, s', m') -> local_move s m s' m'.
Proof.
  intros H. apply append_tokens_appended in H. destruct H as [k Happ].
  eapply appended_local; eassumption.
Qed.

(** Identifiers that are in range, distinct and not free can all be
    released. *)
Lemma free_blocks_loop_ok (ids : list Z) :
  forall m,
    NoDup (free_blocks m ++ ids) ->
    (forall x, In x ids -> 0 <= x < num_blocks m) ->
    free_blocks_loop ids m =
      (Ok tt, with_free_blocks m (free_blocks m ++ ids)).
Proof.
  induction ids as [|b ids IH]; intros m Hnd Hr.
  - simpl. now rewrite app_nil_r, with_free_blocks_same.
  - simpl.
    rewrite free_block_fresh.
    + rewrite IH; simpl.
      * now rewrite <- app_assoc.
      * now rewrite <- app_assoc.
      * intros x Hx. apply Hr. now right.
    + apply Hr. now left.
    + apply NoDup_remove_2 in Hnd. intros Hin. apply Hnd.
      apply in_or_app. now left.
Qed.

Lemma free_all_blocks_local s m r s' m' :
  NoDup (free_blocks m ++ table_ids s) ->
  (forall x, In x (table_ids s) -> 0 <= x < num_blocks m) ->
  free_all_blocks s m = (r, s', m') -> local_move s m s' m'.
Proof.
  intros Hnd Hr H. unfold free_all_blocks in H.
  fold (table_ids s) in H.
  rewrite (free_blocks_loop_ok _ _ Hnd Hr) in H.
  injection H as _ <- <-. unfold local_move, table_ids. simpl.
  rewrite app_nil_r. split; [apply Permutation_refl | reflexivity].
Qed.

Lemma accounted_NoDup st : accounted st -> NoDup (all_ids st).
Proof.
  intros H. eapply Permutation_NoDup; [apply Permutation_sym, H|].
  apply range_NoDup.
Qed.

Lemma accounted_In st id :
  accounted st -> (In id (all_ids st) <-> 0 <= id < num_blocks (pool st)).
Proof.
  intros H. rewrite <- range_In. split; apply Permutation_in;
    [exact H | apply Permutation_sym, H].
Qed.

Lemma on_sequence_accounted i f st :
  (forall s r s' m',
      NoDup (free_blocks (pool st) ++ table_ids s) ->
      (forall x, In x (table_ids s) -> 0 <= x < num_blocks (pool st)) ->
      f s (pool st) = (r, s', m') -> local_move s (pool st) s' m') ->
  accounted st -> accounted (on_sequence i f st).
Proof.
  intros Hf Hacc. unfold on_sequence.
  destruct (nth_error (sequences st) i) as [s|] eqn:Hi; [|assumption].
  destruct (f s (pool st)) as [[r s'] m'] eqn:Hcall.
  destruct (set_nth_split _ _ _ s' Hi) as (l1 & l2 & Hseq & Hset).
  assert (Hshape : Permutation (all_ids st)
            ((free_blocks (pool st) ++ table_ids s) ++
             (held st ++ concat (map table_ids l1)) ++
             concat (map table_ids l2))).
  { unfold all_ids. rewrite Hseq, map_app, concat_app. simpl.
    apply perm_regroup. }
  assert (Hnd : NoDup (free_blocks (pool st) ++ table_ids s)).
  { eapply NoDup_app_remove_r, Permutation_NoDup;
      [exact Hshape | now apply accounted_NoDup]. }
  assert (Hr : forall x, In x (table_ids s) ->
                         0 <= x < num_blocks (pool st)).
  { intros x Hx. apply (accounted_In st x Hacc).
    eapply Permutation_in; [apply Permutation_sym, Hshape|].
    apply in_or_app. left. apply in_or_app. now right. }
  destruct (Hf s r s' m' Hnd Hr Hcall) as [Hperm Hnum].
  unfold accounted, all_ids. simpl. rewrite Hset, Hnum.
  rewrite map_app, concat_app. simpl.
  eapply Permutation_trans; [apply perm_regroup|].
  eapply Permutation_trans; [|exact Hacc].
  eapply Permutation_trans; [|apply Permutation_sym, Hshape].
  now apply Permutation_app_tail.
Qed.

Lemma in_some_table_In st id :
  in_some_table st id = false ->
  ~ In id (concat (map table_ids (sequences st))).
Proof.
  unfold in_some_table. intros H Hin.
  apply in_concat in Hin. destruct Hin as (l & Hl & Hid).
  apply in_map_iff in Hl. destruct Hl as (s & <- & Hs).
  assert (Ht : existsb (fun s => list_contains id (table_ids s))
                 (sequences st) = true).
  { apply existsb_exists. exists s. split; [assumption|].
    now apply list_contains_In. }
  congruence.
Qed.

Lemma remove_NoDup_split (x : Z) (l1 l2 : list Z) :
  NoDup (l1 ++ x :: l2) -> remove Z.eq_dec x (l1 ++ x :: l2) = l1 ++ l2.
Proof.
  intros Hnd. apply NoDup_remove_2 in Hnd.
  rewrite remove_app. simpl.
  destruct (Z.eq_dec x x) as [_|Hne]; [|contradiction].
  rewrite !notin_remove; [reflexivity| |];
    intros Hin; apply Hnd, in_or_app; auto.
Qed.

Lemma exec_accounted st o :
  accounted st -> admissible_op st o = true -> accounted (exec st o).
Proof.
  intros Hacc Hadm. destruct o as [rid| |id|i|i n|i]; simpl.
  - unfold accounted, all_ids. simpl.
    rewrite map_app, concat_app. simpl. rewrite app_nil_r. exact Hacc.
  - destruct (allocate_block_cases (pool st)) as [[_ Hr]|[l [x [Hf Hr]]]];
      rewrite Hr.
    + exact Hacc.
    + unfold accounted, all_ids in *. simpl. rewrite Hf in Hacc.
      rewrite <- app_assoc in Hacc. exact Hacc.
  - destruct (free_block (pool st) id) as [[u|e] m'] eqn:Hfb.
    + apply free_block_ok in Hfb. destruct Hfb as (Hr & Hnf & ->).
      simpl in Hadm. apply negb_true_iff, in_some_table_In in Hadm.
      assert (Hin : In id (held st)).
      { apply (accounted_In st id Hacc) in Hr. unfold all_ids in Hr.
        apply in_app_or in Hr. destruct Hr as [Hr|Hr]; [contradiction|].
        apply in_app_or in Hr. destruct Hr as [Hr|Hr];
          [assumption | contradiction]. }
      apply in_split in Hin. destruct Hin as (h1 & h2 & Hh).
      assert (Hndh : NoDup (held st)).
      { apply accounted_NoDup in Hacc. unfold all_ids in Hacc.
        apply NoDup_app_remove_l in Hacc.
        now apply NoDup_app_remove_r in Hacc. }
      unfold accounted, all_ids in *. simpl.
      rewrite Hh in *. rewrite (remove_NoDup_split _ _ _ Hndh).
      eapply Permutation_trans; [|exact Hacc].
      rewrite <- !app_assoc. apply Permutation_app_head. simpl.
      apply Permutation_middle.
    + apply free_block_raise in Hfb. subst m'. exact Hacc.
  - apply on_sequence_accounted; [|assumption].
    intros s r s' m' _ _. apply append_token_local.
  - apply on_sequence_accounted; [|assumption].
    intros s r s' m' _ _. apply append_tokens_local.
  - apply on_sequence_accounted; [|assumption].
    intros s r s' m'. apply free_all_blocks_local.
Qed.

Lemma run_accounted ops :
  forall st, accounted st -> admissible st ops = true ->
             accounted (run st ops).
Proof.
  induction ops as [|o ops IH]; intros st Hacc Hadm; [assumption|].
  simpl in Hadm. apply andb_true_iff in Hadm. destruct Hadm as [Ho Hrest].
  simpl. apply IH; [now apply exec_accounted | assumption].
Qed.

Lemma boot_accounted n bs nl nh hs dev : accounted (boot n bs nl nh hs dev).
Proof.
  unfold accounted, all_ids. simpl. rewrite app_nil_r.
  apply Permutation_refl.
Qed.

End Ownership.

(** ** Several sequences on one pool: the partition *)

Section Partition.

Lemma count_occ_concat_map {A : Type} (f : A -> list Z) (l : list A) (x : Z) :
  count_occ Z.eq_dec (concat (map f l)) x =
  list_sum (map (fun a => count_occ Z.eq_dec (f a) x) l).
Proof.
  induction l as [|a l IH]; simpl; [reflexivity|].
  now rewrite count_occ_app, IH.
Qed.

Lemma count_all_ids st id :
  count_occ Z.eq_dec (all_ids st) id =
  (in_free st id + in_held st id + in_tables st id)%nat.
Proof.
  unfold all_ids, in_free, in_held, in_tables.
  rewrite !count_occ_app, count_occ_concat_map. lia.
Qed.

Lemma list_sum_one {A : Type} (f : A -> nat) (l : list A) i a :
  nth_error l i = Some a -> (f a <= list_sum (map f l))%nat.
Proof.
  revert i. induction l as [|h t IH]; intros [|i] H; simpl in *;
    try discriminate.
  - injection H as ->. lia.
  - specialize (IH i H). lia.
Qed.

Lemma list_sum_two {A : Type} (f : A -> nat) (l : list A) i j a b :
  i <> j -> nth_error l i = Some a -> nth_error l j = Some b ->
  (f a + f b <= list_sum (map f l))%nat.
Proof.
  revert i j. induction l as [|h t IH]; intros [|i] [|j] Hne Hi Hj;
    simpl in *; try discriminate; try congruence.
  - injection Hi as ->. pose proof (list_sum_one f t j b Hj). lia.
  - injection Hj as ->. pose proof (list_sum_one f t i a Hi). lia.
  - assert (Hne' : i <> j) by congruence.
    specialize (IH i j Hne' Hi Hj). lia.
Qed.

Lemma accounted_partition st : accounted st -> partition st.
Proof.
  intros Hacc.
  assert (Hcount : forall id,
    (in_free st id + in_held st id + in_tables st id)%nat =
    count_occ Z.eq_dec (range (num_blocks (pool st))) id).
  { intros id. rewrite <- count_all_ids.
    now apply Permutation_count_occ. }
  assert (Hle : forall id,
    (in_free st id + in_held st id + in_tables st id <= 1)%nat).
  { intros id. rewrite Hcount.
    apply NoDup_count_occ, range_NoDup. }
  split; [|split].
  - intros id Hid. rewrite Hcount.
    apply NoDup_count_occ'; [apply range_NoDup | now apply range_In].
  - intros id Hid. rewrite Hcount.
    apply count_occ_not_In. now rewrite range_In.
  - intros i j si sj id Hne Hi Hj Hsi Hsj.
    apply (count_occ_In Z.eq_dec) in Hsi, Hsj.
    pose proof (list_sum_two
                  (fun s => count_occ Z.eq_dec (table_ids s) id)
                  (sequences st) i j si sj Hne Hi Hj) as Hsum.
    specialize (Hle id). unfold in_tables in Hle. lia.
Qed.

Lemma free_all_blocks_num_blocks s m r s' m' :
  free_all_blocks s m = (r, s', m') -> num_blocks m' = num_blocks m.
Proof.
  intros H.
  destruct (free_all_blocks_cases s m)
    as [(m1 & Hrel & Hrun)|(pre & b & post & e & m1 & _ & Hrel & _ & Hrun & _)];
    rewrite Hrun in H; injection H as _ _ <-;
    apply released_facts in Hrel; now destruct Hrel as [-> _].
Qed.

Lemma append_token_num_blocks s m r s' m' :
  append_token s m = (r, s', m') -> num_blocks m' = num_blocks m.
Proof. intros H. apply append_token_local in H. exact (proj2 H). Qed.

Lemma append_tokens_num_blocks s m n r s' m' :
  append_tokens s m n = (r, s', m') -> num_blocks m' = num_blocks m.
Proof. intros H. apply append_tokens_local in H. exact (proj2 H). Qed.

Lemma on_sequence_num_blocks i f st :
  (forall s r s' m', f s (pool st) = (r, s', m') ->
                     num_blocks m' = num_blocks (pool st)) ->
  num_blocks (pool (on_sequence i f st)) = num_blocks (pool st).
Proof.
  intros Hf. unfold on_sequence.
  destruct (nth_error (sequences st) i) as [s|]; [|reflexivity].
  destruct (f s (pool st)) as [[r s'] m'] eqn:H. simpl. eapply Hf, H.
Qed.

Lemma exec_num_blocks st o :
  num_blocks (pool (exec st o)) = num_blocks (pool st).
Proof.
  destruct o as [rid| |id|i|i n|i]; simpl.
  - reflexivity.
  - destruct (allocate_block_cases (pool st)) as [[_ Hr]|[l [x [_ Hr]]]];
      now rewrite Hr.
  - destruct (free_block (pool st) id) as [[u|e] m'] eqn:H.
    + apply free_block_ok in H. now destruct H as (_ & _ & ->).
    + apply free_block_raise in H. now subst.
  - apply on_sequence_num_blocks. intros s r s' m'.
    apply append_token_num_blocks.
  - apply on_sequence_num_blocks. intros s r s' m'.
    apply append_tokens_num_blocks.
  - apply on_sequence_num_blocks. intros s r s' m'.
    apply free_all_blocks_num_blocks.
Qed.

Lemma run_num_blocks ops :
  forall st, num_blocks (pool (run st ops)) = num_blocks (pool st).
Proof.
  induction ops as [|o ops IH]; intros st; [reflexivity|].
  simpl. now rewrite IH, exec_num_blocks.
Qed.

(** C1, as the code has it.  Start from a freshly constructed pool and no
    sequence, and make any calls of [append_token], [append_tokens] and
    [free_all_blocks] on any number of sequences, of [allocate_block] by
    the driver itself, and of [free_block] by the driver on identifiers
    that no block table refers to.  Then every identifier of
    [[0, num_blocks)] occurs exactly once in the free list, the driver's
    own blocks and the block tables taken together, no other identifier
    occurs there, and no two block tables share an identifier. *)
Theorem ownership_partition
    (n bs nl nh hs : Z) (dev : string) (ops : list op)
    (Hadm : admissible (boot n bs nl nh hs dev) ops = true) :
  let st := run (boot n bs nl nh hs dev) ops in
  num_blocks (pool st) = n /\ partition st.
Proof.
  intros st. split.
  - unfold st. now rewrite run_num_blocks.
  - apply accounted_partition, run_accounted; [apply boot_accounted|].
    exact Hadm.
Qed.

Lemma ownership_partition_witness :
  let st := run (boot 4 4 1 1 1 "cpu") busy_day in
  num_blocks (pool st) = 4 /\ partition st.
Proof.
  apply (ownership_partition 4 4 1 1 1 "cpu" busy_day). reflexivity.
Defined.

Example busy_day_value :
  run (boot 4 4 1 1 1 "cpu") busy_day =
    {| pool := with_free_blocks (BlockManager_init 4 4 1 1 1 "cpu") [3; 0; 1];
       sequences := [mkSequence "a" 0 []; mkSequence "b" 0 []];
       held := [2] |}.
Proof. vm_compute. reflexivity. Qed.

(** C1 as worded fails on the code.  A block that the driver allocates
    itself is neither free nor in a block table; and after the driver
    releases by hand a block that a sequence still maps, the pool hands it
    to a second sequence. *)
Lemma ownership_counterexample :
  ~ exclusive_ownership (run small_system [Allocate]) /\
  ~ exclusive_ownership
      (run small_system
         [NewSequence "a"; AppendToken 0; Release 1;
          NewSequence "b"; AppendToken 1]).
Proof.
  split.
  - intros [H _].
    assert (Hr : 0 <= 1 < num_blocks (pool (run small_system [Allocate])))
      by (change (0 <= 1 < 2); lia).
    apply H in Hr. vm_compute in Hr. discriminate.
  - intros [_ H].
    apply (H 0%nat 1%nat (mkSequence "a" 1 [(0, 1)])
             (mkSequence "b" 1 [(0, 1)]) 1); try reflexivity.
    + discriminate.
    + simpl. tauto.
    + simpl. tauto.
Qed.

End Partition.

(** ** The pool under any use *)

Section PoolDiscipline.

Lemma with_free_blocks_back (m : BlockManager) (l : list Z) :
  with_free_blocks (with_free_blocks m l) (free_blocks m) = m.
Proof. now destruct m. Qed.

Lemma pool_wf_init (n bs nl nh hs : Z) (dev : string) :
  pool_wf (BlockManager_init n bs nl nh hs dev).
Proof.
  split; simpl.
  - apply range_NoDup.
  - intros id Hid. simpl. now apply range_In.
Qed.

Lemma allocate_block_wf m r m' :
  pool_wf m -> allocate_block m = (r, m') -> pool_wf m'.
Proof.
  intros [Hnd Hr] H.
  destruct (allocate_block_cases m) as [[_ Ha]|[l [x [Hf Ha]]]];
    rewrite Ha in H; injection H as _ <-; [now split|].
  rewrite Hf in Hnd. split; simpl.
  - now apply NoDup_app_remove_r in Hnd.
  - intros id Hid. simpl. apply Hr. rewrite Hf. apply in_or_app. now left.
Qed.

Lemma free_block_wf m b r m' :
  pool_wf m -> free_block m b = (r, m') -> pool_wf m'.
Proof.
  intros [Hnd Hr] H. destruct r as [u|e].
  - apply free_block_ok in H. destruct H as (Hb & Hnin & ->).
    split; simpl.
    + apply NoDup_app; [assumption | repeat constructor; tauto |].
      intros x Hx [<-|[]]. contradiction.
    + intros id Hid. simpl. apply in_app_or in Hid.
      destruct Hid as [Hid|[<-|[]]]; [now apply Hr | assumption].
  - apply free_block_raise in H. subst. now split.
Qed.

Lemma appended_wf k s m s' m' :
  appended k s m s' m' -> pool_wf m -> pool_wf m'.
Proof.
  induction 1 as [|k s m s1 m1 s2 m2 Hstep _ IH]; intros Hwf; [assumption|].
  apply IH. apply append_token_ok in Hstep.
  destruct Hstep as (_ & _ & _ & [(_ & _ & ->)|(_ & p & Ha & _)]);
    [assumption|].
  eapply allocate_block_wf; eassumption.
Qed.

Lemma append_token_wf s m r s' m' :
  append_token s m = (r, s', m') -> pool_wf m -> pool_wf m'.
Proof.
  destruct r as [[]|e]; intros H Hwf.
  - eapply (appended_wf 1 s m s' m'); [|assumption].
    econstructor; [exact H | constructor].
  - apply append_token_raise in H. now destruct H as (_ & -> & _).
Qed.

Lemma append_tokens_wf s m n r s' m' :
  append_tokens s m n = (r, s', m') -> pool_wf m -> pool_wf m'.
Proof.
  intros H. apply append_tokens_appended in H. destruct H as [k Happ].
  eapply appended_wf; eassumption.
Qed.

Lemma released_wf ids m m' :
  released ids m m' -> pool_wf m -> pool_wf m'.
Proof.
  induction 1 as [|b ids m m1 m2 Hb _ IH]; intros Hwf; [assumption|].
  apply IH. eapply free_block_wf; eassumption.
Qed.

Lemma free_all_blocks_wf s m r s' m' :
  free_all_blocks s m = (r, s', m') -> pool_wf m -> pool_wf m'.
Proof.
  intros H Hwf.
  destruct (free_all_blocks_cases s m)
    as [(m1 & Hrel & Hrun)|(pre & b & post & e & m1 & _ & Hrel & _ & Hrun & _)];
    rewrite Hrun in H; injection H as _ _ <-;
    eapply released_wf; eassumption.
Qed.

Lemma on_sequence_wf i f st :
  (forall s r s' m', f s (pool st) = (r, s', m') ->
                     pool_wf (pool st) -> pool_wf m') ->
  pool_wf (pool st) -> pool_wf (pool (on_sequence i f st)).
Proof.
  intros Hf Hwf. unfold on_sequence.
  destruct (nth_error (sequences st) i) as [s|]; [|assumption].
  destruct (f s (pool st)) as [[r s'] m'] eqn:H. simpl.
  eapply Hf; eassumption.
Qed.

Lemma exec_wf st o : pool_wf (pool st) -> pool_wf (pool (exec st o)).
Proof.
  intros Hwf. destruct o as [rid| |id|i|i n|i]; simpl.
  - assumption.
  - destruct (allocate_block (pool st)) as [[b|e] m'] eqn:H; simpl;
      eapply allocate_block_wf; eassumption.
  - destruct (free_block (pool st) id) as [[u|e] m'] eqn:H; simpl;
      eapply free_block_wf; eassumption.
  - apply on_sequence_wf; [|assumption].
    intros s r s' m'. apply append_token_wf.
  - apply on_sequence_wf; [|assumption].
    intros s r s' m'. apply append_tokens_wf.
  - apply on_sequence_wf; [|assumption].
    intros s r s' m'. apply free_all_blocks_wf.
Qed.

Lemma run_wf ops : forall st, pool_wf (pool st) -> pool_wf (pool (run st ops)).
Proof.
  induction ops as [|o ops IH]; intros st Hwf; [assumption|].
  simpl. apply IH. now apply exec_wf.
Qed.

(** X1. Whatever the driver does with a freshly constructed pool, in any
    order and whether the calls return or raise (also releases by hand of
    blocks that a sequence still maps), the free list never holds an
    identifier twice nor one outside [[0, num_blocks)], and so never more
    than [num_blocks] entries. *)
Theorem free_list_never_corrupt
    (n bs nl nh hs : Z) (dev : string) (ops : list op) :
  let m := pool (run (boot n bs nl nh hs dev) ops) in
  NoDup (free_blocks m) /\
  (forall id, In id (free_blocks m) -> 0 <= id < n) /\
  get_num_free_blocks m <= Z.max 0 n.
Proof.
  intros m.
  assert (Hwf : pool_wf m).
  { apply run_wf. apply pool_wf_init. }
  assert (Hn : num_blocks m = n).
  { unfold m. now rewrite run_num_blocks. }
  destruct Hwf as [Hnd Hr]. unfold free_in_range in Hr. rewrite Hn in Hr.
  split; [assumption|]. split; [assumption|].
  unfold get_num_free_blocks.
  assert (Hlen : (length (free_blocks m) <= length (range n))%nat).
  { apply NoDup_incl_length; [assumption|].
    intros id Hid. apply range_In. now apply Hr. }
  rewrite range_length in Hlen. lia.
Qed.

(** X2. Right after a release of [b] that returned, a second release of
    [b] raises the already-free [ValueError] and changes nothing, while an
    allocation hands out [b] again and puts the pool back exactly as it
    was before the release. *)
Theorem release_then_again_or_allocate
    (m m1 : BlockManager) (b : Z)
    (Hfree : free_block m b = (Ok tt, m1)) :
  free_block m1 b = (Raise (AlreadyFree b), m1) /\
  allocate_block m1 = (Ok b, m).
Proof.
  apply free_block_ok in Hfree. destruct Hfree as (Hb & Hnin & ->). split.
  - apply free_block_already_free; simpl; [assumption|].
    apply in_or_app. right. now left.
  - rewrite (allocate_block_top
               (with_free_blocks m (free_blocks m ++ [b]))
               (free_blocks m) b eq_refl).
    now rewrite with_free_blocks_back.
Qed.

Lemma release_then_again_or_allocate_witness :
  free_block (with_free_blocks small_pool [0; 1]) 1 =
    (Raise (AlreadyFree 1), with_free_blocks small_pool [0; 1]) /\
  allocate_block (with_free_blocks small_pool [0; 1]) =
    (Ok 1, with_free_blocks small_pool [0]).
Proof.
  apply (release_then_again_or_allocate
           (with_free_blocks small_pool [0])
           (with_free_blocks small_pool [0; 1]) 1).
  reflexivity.
Defined.

(** X3. In a pool whose free list holds pool identifiers without
    repetition, a block that [allocate_block] hands out is an identifier
    of the pool, is no longer in the free list, the free count is one
    less, and releasing the block at once puts the pool back exactly as it
    was. *)
Theorem allocate_then_release
    (m m1 : BlockManager) (b : Z)
    (Hwf : pool_wf m)
    (Halloc : allocate_block m = (Ok b, m1)) :
  0 <= b < num_blocks m /\
  ~ In b (free_blocks m1) /\
  get_num_free_blocks m1 = get_num_free_blocks m - 1 /\
  free_block m1 b = (Ok tt, m).
Proof.
  destruct Hwf as [Hnd Hr].
  destruct (allocate_block_cases m) as [[_ Ha]|[l [x [Hf Ha]]]];
    rewrite Ha in Halloc; [discriminate|].
  injection Halloc as -> <-.
  assert (Hb : 0 <= b < num_blocks m).
  { apply Hr. rewrite Hf. apply in_or_app. right. now left. }
  assert (Hnin : ~ In b l).
  { rewrite Hf in Hnd. apply NoDup_remove_2 in Hnd.
    now rewrite app_nil_r in Hnd. }
  split; [assumption|]. split; [assumption|]. split.
  - unfold get_num_free_blocks. simpl. rewrite Hf, length_app. simpl. lia.
  - rewrite free_block_fresh; simpl; try assumption.
    rewrite <- Hf. now rewrite with_free_blocks_back.
Qed.

Lemma allocate_then_release_witness :
  0 <= 1 < num_blocks small_pool /\
  ~ In 1 (free_blocks (with_free_blocks small_pool [0])) /\
  get_num_free_blocks (with_free_blocks small_pool [0]) =
    get_num_free_blocks small_pool - 1 /\
  free_block (with_free_blocks small_pool [0]) 1 = (Ok tt, small_pool).
Proof.
  apply (allocate_then_release small_pool (with_free_blocks small_pool [0]) 1).
  - apply pool_wf_init.
  - reflexivity.
Defined.

Lemma allocate_times_suffix (l : list Z) :
  forall f m, free_blocks m = f ++ l ->
    allocate_times (length l) m = (map Ok (rev l), with_free_blocks m f).
Proof.
  induction l as [|x l IH] using rev_ind; intros f m H.
  - simpl. rewrite app_nil_r in H. rewrite <- H.
    now rewrite with_free_blocks_same.
  - rewrite length_app, Nat.add_comm. simpl.
    rewrite app_assoc in H.
    rewrite (allocate_block_top m (f ++ l) x H).
    rewrite (IH f (with_free_blocks m (f ++ l)) eq_refl).
    rewrite rev_unit. reflexivity.
Qed.

(** X4. After a [free_all_blocks] that returned, as many allocations as
    the sequence had blocks all succeed, hand the blocks out again in the
    reverse of their logical order, and put the pool back exactly as it
    was before the release. *)
Theorem release_all_then_allocate
    (s s' : Sequence) (m m' : BlockManager)
    (Hfree : free_all_blocks s m = (Ok tt, s', m')) :
  allocate_times (length (block_table s)) m' =
    (map Ok (rev (dict_values (block_table s))), m).
Proof.
  destruct (free_all_blocks_cases s m)
    as [(m1 & Hrel & Hrun)|(pre & b & post & e & m1 & _ & _ & _ & Hrun & _)];
    rewrite Hrun in Hfree; [|discriminate].
  injection Hfree as _ <-.
  apply released_facts in Hrel. destruct Hrel as (-> & _).
  rewrite <- (length_map snd (block_table s)).
  fold (dict_values (block_table s)).
  rewrite (allocate_times_suffix (dict_values (block_table s))
             (free_blocks m)
             (with_free_blocks m
                (free_blocks m ++ dict_values (block_table s))) eq_refl).
  now rewrite with_free_blocks_back.
Qed.

Lemma release_all_then_allocate_witness :
  allocate_times (length (block_table (mkSequence "r" 5 [(0, 1); (1, 0)])))
    (with_free_blocks small_pool [1; 0]) =
    (map Ok (rev (dict_values [(0, 1); (1, 0)])), drained_pool).
Proof.
  apply (release_all_then_allocate
           (mkSequence "r" 5 [(0, 1); (1, 0)]) (mkSequence "r" 0 [])
           drained_pool (with_free_blocks small_pool [1; 0])).
  reflexivity.
Defined.

End PoolDiscipline.

(** ** Growth of a sequence, block by block *)

Section Growth.

Lemma ceil_div_at_boundary (a b : Z) :
  0 < b -> a mod b = 0 -> ceil_div a b = a / b /\ a = ceil_div a b * b.
Proof.
  intros Hb Hmod.
  pose proof (Z.div_mod a b ltac:(lia)) as Hdm.
  assert (Hq : a / b = ceil_div a b) by (apply ceil_div_unique; nia).
  split; [congruence | nia].
Qed.

Lemma ceil_div_inside (a b : Z) :
  0 < b -> a mod b <> 0 -> ceil_div a b = a / b + 1.
Proof.
  intros Hb Hmod. symmetry. apply ceil_div_unique; [assumption|].
  pose proof (Z.div_mod a b ltac:(lia)) as Hdm.
  pose proof (Z.mod_pos_bound a b Hb) as Hbound.
  nia.
Qed.

Lemma ceil_div_mono (a a' b : Z) :
  0 < b -> a <= a' -> ceil_div a b <= ceil_div a' b.
Proof.
  intros Hb Hle. unfold ceil_div. apply Z.div_le_mono; lia.
Qed.

Lemma ceil_div_multiple (q b : Z) : 0 < b -> ceil_div (q * b) b = q.
Proof.
  intros Hb. symmetry. apply ceil_div_unique; [assumption | nia].
Qed.

Lemma tiled_num_blocks (bs : Z) (s : Sequence) :
  0 < bs -> tiled bs s -> get_num_blocks s = ceil_div (token_count s) bs.
Proof.
  intros Hbs [Htc Hkeys].
  pose proof (ceil_div_bounds (token_count s) bs Hbs) as Hcd.
  unfold get_num_blocks. rewrite <- (length_map fst (block_table s)).
  fold (dict_keys (block_table s)). rewrite Hkeys, range_length. nia.
Qed.

(** In a tiled table the block of the next token is mapped exactly when
    the token count is not at a block boundary. *)
Lemma tiled_boundary (bs : Z) (s : Sequence) :
  0 < bs -> tiled bs s ->
  dict_contains (token_count s / bs) (block_table s) =
    negb (token_count s mod bs =? 0).
Proof.
  intros Hbs [Htc Hkeys].
  pose proof (Z.div_pos (token_count s) bs Htc Hbs) as Hq.
  destruct (Z.eqb_spec (token_count s mod bs) 0) as [Hz|Hnz]; simpl.
  - apply not_true_is_false. intros Hin.
    apply dict_contains_keys in Hin. rewrite Hkeys, range_In in Hin.
    destruct (ceil_div_at_boundary _ _ Hbs Hz) as [Hc _]. lia.
  - apply dict_contains_keys. rewrite Hkeys, range_In.
    rewrite (ceil_div_inside _ _ Hbs Hnz). lia.
Qed.

(** One [append_token] on a tiled sequence: inside a block the pool is
    not touched; at a block boundary the top of the free list is taken or,
    if there is none, the call raises. *)
Lemma append_token_on_tiled (bs : Z) (s : Sequence) (m : BlockManager) :
  0 < bs -> tiled bs s -> block_size m = bs ->
  (token_count s mod bs <> 0 /\
   append_token s m =
     (Ok tt, mkSequence (request_id s) (token_count s + 1) (block_table s),
      m)) \/
  (token_count s mod bs = 0 /\
   ((exists l x,
        free_blocks m = l ++ [x] /\
        append_token s m =
          (Ok tt,
           mkSequence (request_id s) (token_count s + 1)
             (block_table s ++ [(token_count s / bs, x)]),
           with_free_blocks m l)) \/
    (free_blocks m = [] /\
     append_token s m =
       (Raise (AllocFailed (request_id s) (token_count s)
                 (AllAllocated (num_blocks m))), s, m)))).
Proof.
  intros Hbs Ht Hm.
  pose proof (tiled_boundary bs s Hbs Ht) as Hc.
  unfold append_token. rewrite Hm.
  destruct (Z.eqb_spec bs 0) as [|_]; [lia|].
  rewrite Hc.
  destruct (Z.eqb_spec (token_count s mod bs) 0) as [Hz|Hnz]; simpl.
  - right. split; [assumption|].
    simpl in Hc. apply dict_contains_false in Hc.
    destruct (allocate_block_cases m) as [[Hf Ha]|[l [x [Hf Ha]]]];
      rewrite Ha; simpl.
    + right. auto.
    + left. exists l, x. split; [assumption|].
      now rewrite (dict_set_new _ _ _ Hc).
  - left. auto.
Qed.

Lemma append_token_keeps_tiled (bs : Z) s m r s' m' :
  0 < bs -> block_size m = bs -> tiled bs s ->
  append_token s m = (r, s', m') -> tiled bs s'.
Proof.
  intros Hbs Hm Ht H.
  pose proof (tiled_do_call bs s (Append m) Hbs Hm Ht) as Ht'.
  simpl in Ht'. now rewrite H in Ht'.
Qed.

Lemma append_tokens_loop_on_tiled (bs : Z) (Hbs : 0 < bs) (k : nat) :
  forall s m,
    tiled bs s -> block_size m = bs ->
    exists r s' m',
      append_tokens_loop k s m = (r, s', m') /\
      tiled bs s' /\
      block_size m' = bs /\
      ((ceil_div (token_count s + Z.of_nat k) bs
          - ceil_div (token_count s) bs <= get_num_free_blocks m /\
        r = Ok tt /\
        token_count s' = token_count s + Z.of_nat k /\
        get_num_free_blocks m' =
          get_num_free_blocks m
          - (ceil_div (token_count s + Z.of_nat k) bs
             - ceil_div (token_count s) bs)) \/
       (get_num_free_blocks m <
          ceil_div (token_count s + Z.of_nat k) bs
          - ceil_div (token_count s) bs /\
        r = Raise (AllocFailed (request_id s)
                     ((ceil_div (token_count s) bs + get_num_free_blocks m)
                      * bs)
                     (AllAllocated (num_blocks m))) /\
        token_count s' =
          (ceil_div (token_count s) bs + get_num_free_blocks m) * bs /\
        get_num_free_blocks m' = 0)).
Proof.
  induction k as [|k IH]; intros s m Ht Hm.
  - exists (Ok tt), s, m. simpl. rewrite Z.add_0_r.
    split; [reflexivity|]. split; [assumption|]. split; [assumption|].
    left. unfold get_num_free_blocks. repeat split; lia.
  - simpl append_tokens_loop.
    replace (token_count s + Z.of_nat (S k))
      with (token_count s + 1 + Z.of_nat k) by lia.
    pose proof (ceil_div_succ (token_count s) bs Hbs) as Hsucc.
    destruct (append_token_on_tiled bs s m Hbs Ht Hm)
      as [(Hnz & Happ)|(Hz & [(l & x & Hf & Happ)|(Hf & Happ)])].
    + pose proof (append_token_keeps_tiled bs _ _ _ _ _ Hbs Hm Ht Happ) as Ht1.
      rewrite Happ.
      destruct (IH _ m Ht1 Hm) as (r & s' & m' & Hrun & Ht' & Hm' & Hcase).
      exists r, s', m'. simpl in Hcase.
      rewrite Hsucc, <- (ceil_div_inside _ _ Hbs Hnz) in Hcase.
      split; [assumption|]. split; [assumption|]. split; assumption.
    + pose proof (append_token_keeps_tiled bs _ _ _ _ _ Hbs Hm Ht Happ) as Ht1.
      rewrite Happ.
      assert (Hm1 : block_size (with_free_blocks m l) = bs) by exact Hm.
      destruct (IH _ _ Ht1 Hm1) as (r & s' & m' & Hrun & Ht' & Hm' & Hcase).
      exists r, s', m'. simpl in Hcase.
      destruct (ceil_div_at_boundary _ _ Hbs Hz) as [Hc _].
      rewrite Hsucc, <- Hc in Hcase.
      assert (Hlen : get_num_free_blocks (with_free_blocks m l) =
                     get_num_free_blocks m - 1).
      { unfold get_num_free_blocks. simpl. rewrite Hf, length_app. simpl. lia. }
      rewrite Hlen in Hcase.
      split; [assumption|]. split; [assumption|]. split; [assumption|].
      destruct Hcase as [(H1 & H2 & H3 & H4)|(H1 & H2 & H3 & H4)].
      * left. repeat split; try assumption; lia.
      * right. split; [lia|]. split; [|split; [lia | assumption]].
        rewrite H2. do 2 f_equal. lia.
    + rewrite Happ. exists
        (Raise (AllocFailed (request_id s) (token_count s)
                  (AllAllocated (num_blocks m)))), s, m.
      destruct (ceil_div_at_boundary _ _ Hbs Hz) as [_ Htc].
      assert (Hlen : get_num_free_blocks m = 0).
      { unfold get_num_free_blocks. now rewrite Hf. }
      pose proof (ceil_div_mono (token_count s + 1)
                    (token_count s + 1 + Z.of_nat k) bs Hbs ltac:(lia)) as Hmono.
      destruct (ceil_div_at_boundary _ _ Hbs Hz) as [Hc _].
      split; [reflexivity|]. split; [assumption|]. split; [assumption|].
      right. rewrite Hlen, Z.add_0_r.
      split; [lia|]. split; [|split; [lia | reflexivity]].
      do 2 f_equal. exact Htc.
Qed.

End Growth.

(** ** What a caller can count on when a sequence grows *)

Section GrowthFacts.

Lemma after_calls_request_id (rid : string) (cs : list call) :
  request_id (after_calls (Sequence_init rid) cs) = rid.
Proof.
  induction cs as [|c cs IH] using rev_ind; [reflexivity|].
  rewrite after_calls_snoc.
  destruct (do_call_cases (after_calls (Sequence_init rid) cs) c)
    as [->|[->|(m & u & m' & -> & H)]]; try assumption.
  apply append_token_ok in H. destruct H as (_ & -> & _). assumption.
Qed.

(** X5. The keys of the block table of a sequence are exactly
    [0, 1, ..., get_num_blocks - 1], in this order of insertion: logical
    blocks are created in increasing order without gaps, and
    [block_table.values()] lists the physical blocks in logical order. *)
Theorem block_table_keys_in_order
    (bs : Z) (rid : string) (cs : list call)
    (Hbs : 0 < bs) (Hcs : calls_on bs cs) :
  let s := after_calls (Sequence_init rid) cs in
  dict_keys (block_table s) = range (get_num_blocks s) /\
  0 <= token_count s.
Proof.
  intros s.
  pose proof (tiled_after_calls bs rid cs Hbs Hcs) as Ht. fold s in Ht.
  rewrite (tiled_num_blocks bs s Hbs Ht). destruct Ht. now split.
Qed.

Lemma block_table_keys_in_order_witness :
  let s := after_calls (Sequence_init "r") life_of_six in
  dict_keys (block_table s) = range (get_num_blocks s) /\
  0 <= token_count s.
Proof.
  apply (block_table_keys_in_order 4 "r" life_of_six).
  - lia.
  - exact calls_on_life_of_six.
Defined.

(** X6. [append_token] touches the pool only at a block boundary.  While
    the token count is not a multiple of the block size the call returns
    for any pool, even an exhausted one, and changes nothing but the
    count.  At a multiple it takes the top of the free list and maps the
    next logical block to it, or raises if the free list is empty. *)
Theorem append_allocates_only_at_block_start
    (bs : Z) (rid : string) (cs : list call) (m : BlockManager)
    (Hbs : 0 < bs) (Hcs : calls_on bs cs) (Hm : block_size m = bs) :
  let s := after_calls (Sequence_init rid) cs in
  (token_count s mod bs <> 0 ->
     append_token s m =
       (Ok tt, mkSequence rid (token_count s + 1) (block_table s), m)) /\
  (token_count s mod bs = 0 ->
     forall l x, free_blocks m = l ++ [x] ->
       append_token s m =
         (Ok tt,
          mkSequence rid (token_count s + 1)
            (block_table s ++ [(get_num_blocks s, x)]),
          with_free_blocks m l)) /\
  (token_count s mod bs = 0 -> free_blocks m = [] ->
     append_token s m =
       (Raise (AllocFailed rid (token_count s)
                 (AllAllocated (num_blocks m))), s, m)).
Proof.
  intros s.
  pose proof (tiled_after_calls bs rid cs Hbs Hcs) as Ht. fold s in Ht.
  pose proof (after_calls_request_id rid cs) as Hid. fold s in Hid.
  pose proof (tiled_num_blocks bs s Hbs Ht) as Hnb.
  destruct (append_token_on_tiled bs s m Hbs Ht Hm)
    as [(Hnz & Happ)|(Hz & Hcase)]; rewrite Hid in *.
  - split; [intros _; exact Happ|]. split; intros Hz; contradiction.
  - destruct (ceil_div_at_boundary _ _ Hbs Hz) as [Hc _].
    split; [intros Hnz; contradiction|]. split.
    + intros _ l x Hf.
      destruct Hcase as [(l' & x' & Hf' & Happ)|(Hf' & _)].
      * rewrite Hf in Hf'. apply app_inj_tail in Hf'.
        destruct Hf' as [<- <-]. rewrite Hnb, Hc. exact Happ.
      * rewrite Hf in Hf'. now destruct l.
    + intros _ Hf.
      destruct Hcase as [(l' & x' & Hf' & _)|(_ & Happ)]; [|exact Happ].
      rewrite Hf in Hf'. now destruct l'.
Qed.

Lemma append_allocates_only_at_block_start_witness :
  let s := after_calls (Sequence_init "r") life_of_six in
  (token_count s mod 4 <> 0 ->
     append_token s drained_pool =
       (Ok tt, mkSequence "r" (token_count s + 1) (block_table s),
        drained_pool)) /\
  (token_count s mod 4 = 0 ->
     forall l x, free_blocks drained_pool = l ++ [x] ->
       append_token s drained_pool =
         (Ok tt,
          mkSequence "r" (token_count s + 1)
            (block_table s ++ [(get_num_blocks s, x)]),
          with_free_blocks drained_pool l)) /\
  (token_count s mod 4 = 0 -> free_blocks drained_pool = [] ->
     append_token s drained_pool =
       (Raise (AllocFailed "r" (token_count s)
                 (AllAllocated (num_blocks drained_pool))), s, drained_pool)).
Proof.
  apply (append_allocates_only_at_block_start 4 "r" life_of_six drained_pool).
  - lia.
  - exact calls_on_life_of_six.
  - reflexivity.
Defined.

(** X7. Whether [append_tokens] succeeds depends on the number of free
    blocks only, never on which blocks they are.  For a sequence with
    [get_num_blocks] blocks, [n >= 0] more tokens need
    [ceil((token_count + n) / block_size) - get_num_blocks] new blocks.
    If the pool has that many free blocks the call returns, the sequence
    has [n] more tokens and the pool that many fewer free blocks.
    Otherwise the call takes every free block, fills them all, and raises
    at the token position [(get_num_blocks + free count) * block_size]:
    the pool is left with no free block. *)
Theorem append_tokens_needs_only_free_count
    (bs : Z) (rid : string) (cs : list call) (m : BlockManager) (n : Z)
    (Hbs : 0 < bs) (Hcs : calls_on bs cs) (Hm : block_size m = bs)
    (Hn : 0 <= n) :
  let s := after_calls (Sequence_init rid) cs in
  let need := ceil_div (token_count s + n) bs - get_num_blocks s in
  exists r s' m',
    append_tokens s m n = (r, s', m') /\
    (need <= get_num_free_blocks m ->
       r = Ok tt /\
       token_count s' = token_count s + n /\
       get_num_blocks s' = get_num_blocks s + need /\
       get_num_free_blocks m' = get_num_free_blocks m - need) /\
    (get_num_free_blocks m < need ->
       r = Raise (AllocFailed rid
                    ((get_num_blocks s + get_num_free_blocks m) * bs)
                    (AllAllocated (num_blocks m))) /\
       token_count s' = (get_num_blocks s + get_num_free_blocks m) * bs /\
       get_num_blocks s' = get_num_blocks s + get_num_free_blocks m /\
       get_num_free_blocks m' = 0).
Proof.
  intros s need.
  pose proof (tiled_after_calls bs rid cs Hbs Hcs) as Ht. fold s in Ht.
  pose proof (after_calls_request_id rid cs) as Hid. fold s in Hid.
  pose proof (tiled_num_blocks bs s Hbs Ht) as Hnb.
  destruct (append_tokens_loop_on_tiled bs Hbs (Z.to_nat n) s m Ht Hm)
    as (r & s' & m' & Hrun & Ht' & Hm' & Hcase).
  rewrite Z2Nat.id, <- Hnb, Hid in Hcase by assumption.
  fold need in Hcase.
  pose proof (tiled_num_blocks bs s' Hbs Ht') as Hnb'.
  exists r, s', m'. split; [exact Hrun|].
  destruct Hcase as [(H1 & H2 & H3 & H4)|(H1 & H2 & H3 & H4)].
  - split; [|intros Hlt; lia]. intros _.
    repeat split; try assumption.
    rewrite Hnb', H3. unfold need. lia.
  - split; [intros Hle; lia|]. intros _.
    repeat split; try assumption.
    rewrite Hnb', H3. apply ceil_div_multiple. assumption.
Qed.

Lemma append_tokens_needs_only_free_count_witness :
  let s := after_calls (Sequence_init "r") life_of_six in
  let need := ceil_div (token_count s + 7) 4 - get_num_blocks s in
  exists r s' m',
    append_tokens s scattered_pool 7 = (r, s', m') /\
    (need <= get_num_free_blocks scattered_pool ->
       r = Ok tt /\
       token_count s' = token_count s + 7 /\
       get_num_blocks s' = get_num_blocks s + need /\
       get_num_free_blocks m' =
         get_num_free_blocks scattered_pool - need) /\
    (get_num_free_blocks scattered_pool < need ->
       r = Raise (AllocFailed "r"
                    ((get_num_blocks s
                      + get_num_free_blocks scattered_pool) * 4)
                    (AllAllocated (num_blocks scattered_pool))) /\
       token_count s' =
         (get_num_blocks s
          + get_num_free_blocks scattered_pool) * 4 /\
       get_num_blocks s' =
         get_num_blocks s
         + get_num_free_blocks scattered_pool /\
       get_num_free_blocks m' = 0).
Proof.
  apply (append_tokens_needs_only_free_count 4 "r" life_of_six
           scattered_pool 7).
  - lia.
  - exact calls_on_life_of_six.
  - reflexivity.
  - lia.
Defined.

End GrowthFacts.

(** ** Batches, reuse and the driver's figures *)

Section Composition.

Lemma append_tokens_loop_add (j k : nat) :
  forall s m,
    append_tokens_loop (j + k) s m =
    match append_tokens_loop j s m with
    | (Ok _, s', m') => append_tokens_loop k s' m'
    | (Raise e, s', m') => (Raise e, s', m')
    end.
Proof.
  induction j as [|j IH]; intros s m; [reflexivity|].
  simpl. destruct (append_token s m) as [[[u|e] s1] m1]; [apply IH|].
  reflexivity.
Qed.

(** X8. A batch can be split anywhere: [append_tokens] with [a + b]
    tokens does what [append_tokens] with [a] tokens followed, if that
    returned, by [append_tokens] with [b] tokens does; if the first part
    raises, the whole batch stops there with the same exception and the
    same state. *)
Theorem append_tokens_split
    (s : Sequence) (m : BlockManager) (a b : Z)
    (Ha : 0 <= a) (Hb : 0 <= b) :
  append_tokens s m (a + b) =
  match append_tokens s m a with
  | (Ok _, s', m') => append_tokens s' m' b
  | (Raise e, s', m') => (Raise e, s', m')
  end.
Proof.
  unfold append_tokens.
  rewrite Z2Nat.inj_add by assumption.
  apply append_tokens_loop_add.
Qed.

Lemma append_tokens_split_witness :
  append_tokens (Sequence_init "r") small_pool (3 + 9) =
  match append_tokens (Sequence_init "r") small_pool 3 with
  | (Ok _, s', m') => append_tokens s' m' 9
  | (Raise e, s', m') => (Raise e, s', m')
  end.
Proof.
  apply (append_tokens_split (Sequence_init "r") small_pool 3 9); lia.
Defined.

(** X9. After a [free_all_blocks] that returned, the sequence is what
    [Sequence(request_id)] constructs, so it can be used again like a new
    one, and a second [free_all_blocks] returns as well and changes
    neither the sequence nor the pool. *)
Theorem released_sequence_is_fresh
    (s s' : Sequence) (m m' : BlockManager)
    (Hfree : free_all_blocks s m = (Ok tt, s', m')) :
  s' = Sequence_init (request_id s) /\
  free_all_blocks s' m' = (Ok tt, s', m').
Proof.
  destruct (free_all_blocks_cases s m)
    as [(m1 & _ & Hrun)|(pre & b & post & e & m1 & _ & _ & _ & Hrun & _)];
    rewrite Hrun in Hfree; [|discriminate].
  injection Hfree as <- <-. split; reflexivity.
Qed.

Lemma released_sequence_is_fresh_witness :
  mkSequence "r" 0 [] = Sequence_init (request_id (mkSequence "r" 5 [(0, 1); (1, 0)])) /\
  free_all_blocks (mkSequence "r" 0 []) (with_free_blocks small_pool [1; 0]) =
    (Ok tt, mkSequence "r" 0 [], with_free_blocks small_pool [1; 0]).
Proof.
  apply (released_sequence_is_fresh
           (mkSequence "r" 5 [(0, 1); (1, 0)]) (mkSequence "r" 0 [])
           drained_pool (with_free_blocks small_pool [1; 0])).
  reflexivity.
Defined.

Lemma tiled_init (bs : Z) (rid : string) :
  0 < bs -> tiled bs (Sequence_init rid).
Proof.
  intros Hbs. exact (tiled_after_calls bs rid [] Hbs (Forall_nil _)).
Qed.

(** X10. The block count that the request loops of the driver print,
    [num_tokens // block_size], is the number of blocks the new sequence
    really holds exactly when [num_tokens] is a multiple of the block
    size; otherwise the sequence holds one block more than printed.  (The
    real count is the ceiling of [num_tokens / block_size].) *)
Theorem printed_block_count
    (m m' : BlockManager) (seq_id : string) (num_tokens : Z)
    (seq : Sequence) (printed : Z)
    (Hbs : 0 < block_size m) (Hn : 0 <= num_tokens)
    (Hserve : serve_request m seq_id num_tokens = (Ok (seq, printed), m')) :
  get_num_blocks seq = ceil_div num_tokens (block_size m) /\
  (num_tokens mod block_size m = 0 -> printed = get_num_blocks seq) /\
  (num_tokens mod block_size m <> 0 -> printed = get_num_blocks seq - 1).
Proof.
  unfold serve_request, append_tokens in Hserve.
  destruct (append_tokens_loop_on_tiled (block_size m) Hbs
              (Z.to_nat num_tokens) (Sequence_init seq_id) m
              (tiled_init _ _ Hbs) eq_refl)
    as (r & s' & m1 & Hrun & Ht' & Hm1 & Hcase).
  rewrite Hrun in Hserve.
  destruct Hcase as [(_ & -> & Htc & _)|(_ & -> & _)]; [|discriminate].
  rewrite Hm1 in Hserve.
  destruct (Z.eqb_spec (block_size m) 0) as [|_]; [lia|].
  injection Hserve as <- <- <-.
  simpl in Htc. rewrite Z2Nat.id in Htc by assumption.
  pose proof (tiled_num_blocks _ _ Hbs Ht') as Hnb. rewrite Htc in Hnb.
  split; [exact Hnb|]. rewrite Hnb. split.
  - intros Hz. now destruct (ceil_div_at_boundary _ _ Hbs Hz) as [-> _].
  - intros Hnz. rewrite (ceil_div_inside _ _ Hbs Hnz). lia.
Qed.

Lemma printed_block_count_witness :
  get_num_blocks (mkSequence "req" 6 [(0, 1); (1, 0)]) =
    ceil_div 6 (block_size small_pool) /\
  (6 mod block_size small_pool = 0 ->
     1 = get_num_blocks (mkSequence "req" 6 [(0, 1); (1, 0)])) /\
  (6 mod block_size small_pool <> 0 ->
     1 = get_num_blocks (mkSequence "req" 6 [(0, 1); (1, 0)]) - 1).
Proof.
  apply (printed_block_count small_pool drained_pool "req" 6
           (mkSequence "req" 6 [(0, 1); (1, 0)]) 1).
  - simpl. lia.
  - lia.
  - reflexivity.
Defined.

(** X11. What [test_case_2_fragmentation_demo] really computes.  The
    first attempt for [seq_3] raises at token 320 after taking the 20
    blocks that were free; that [Sequence] object is dropped without
    [free_all_blocks], so its 20 blocks never return to the pool.
    Releasing [seq_1] therefore leaves 40 free blocks, not the 60 that
    the docstring and the printed note announce; the second attempt
    needs 30 of them, succeeds, and 10 blocks are free at the end. *)
Theorem fragmentation_demo_outcome :
  test_case_2_fragmentation_demo =
    Ok {| seq_1_blocks := 40; free_after_seq_1 := 60;
          seq_2_blocks := 40; free_after_seq_2 := 20;
          first_attempt :=
            Raise (AllocFailed "seq_3" 320 (AllAllocated 100));
          free_after_release := 40;
          second_attempt := Ok tt;
          seq_3_blocks := 30;
          free_at_end := 10 |}.
Proof. vm_compute. reflexivity. Qed.

End Composition.

(** ** Disciplined use of one pool by several sequences *)

Section Discipline.

Lemma accounted_sequence st i s :
  accounted st -> nth_error (sequences st) i = Some s ->
  NoDup (free_blocks (pool st) ++ table_ids s) /\
  (forall x, In x (table_ids s) -> 0 <= x < num_blocks (pool st)).
Proof.
  intros Hacc Hi.
  apply nth_error_split in Hi. destruct Hi as (l1 & l2 & Hseq & _).
  assert (Hshape : Permutation (all_ids st)
            ((free_blocks (pool st) ++ table_ids s) ++
             (held st ++ concat (map table_ids l1)) ++
             concat (map table_ids l2))).
  { unfold all_ids. rewrite Hseq, map_app, concat_app. simpl.
    apply perm_regroup. }
  split.
  - eapply NoDup_app_remove_r, Permutation_NoDup;
      [exact Hshape | now apply accounted_NoDup].
  - intros x Hx. apply (accounted_In st x Hacc).
    eapply Permutation_in; [apply Permutation_sym, Hshape|].
    apply in_or_app. left. apply in_or_app. now right.
Qed.

Lemma admissible_accounted n bs nl nh hs dev ops :
  admissible (boot n bs nl nh hs dev) ops = true ->
  accounted (run (boot n bs nl nh hs dev) ops).
Proof. intros H. apply run_accounted; [apply boot_accounted | exact H]. Qed.

(** X13. As long as the driver releases by hand only blocks that no
    block table refers to, [free_all_blocks] never raises: on any sequence
    of any reachable state it returns, clears the sequence, and the free
    count grows by exactly the number of blocks the sequence held. *)
Theorem release_all_never_fails
    (n bs nl nh hs : Z) (dev : string) (ops : list op)
    (i : nat) (s : Sequence)
    (Hadm : admissible (boot n bs nl nh hs dev) ops = true)
    (Hi : nth_error (sequences (run (boot n bs nl nh hs dev) ops)) i = Some s) :
  let st := run (boot n bs nl nh hs dev) ops in
  exists m',
    free_all_blocks s (pool st) = (Ok tt, cleared s, m') /\
    get_num_free_blocks m' = get_num_free_blocks (pool st) + get_num_blocks s.
Proof.
  intros st.
  destruct (accounted_sequence st i s (admissible_accounted _ _ _ _ _ _ _ Hadm) Hi)
    as [Hnd Hr].
  exists (with_free_blocks (pool st) (free_blocks (pool st) ++ table_ids s)).
  split.
  - unfold free_all_blocks. fold (table_ids s).
    now rewrite (free_blocks_loop_ok _ _ Hnd Hr).
  - unfold get_num_free_blocks, get_num_blocks, table_ids, dict_values. simpl.
    rewrite length_app, length_map. lia.
Qed.

Lemma release_all_never_fails_witness :
  let st := run (boot 4 4 1 1 1 "cpu")
              [NewSequence "a"; AppendTokens 0 5; Allocate;
               NewSequence "b"; AppendToken 1] in
  exists m',
    free_all_blocks (mkSequence "a" 5 [(0, 3); (1, 2)]) (pool st) =
      (Ok tt, cleared (mkSequence "a" 5 [(0, 3); (1, 2)]), m') /\
    get_num_free_blocks m' =
      get_num_free_blocks (pool st)
      + get_num_blocks (mkSequence "a" 5 [(0, 3); (1, 2)]).
Proof.
  apply (release_all_never_fails 4 4 1 1 1 "cpu"
           [NewSequence "a"; AppendTokens 0 5; Allocate;
            NewSequence "b"; AppendToken 1]
           0%nat (mkSequence "a" 5 [(0, 3); (1, 2)])).
  - reflexivity.
  - reflexivity.
Defined.

Lemma total_blocks_used_length (l : list Sequence) :
  Z.of_nat (length (concat (map table_ids l))) = total_blocks_used l.
Proof.
  induction l as [|s l IH]; simpl; [reflexivity|].
  rewrite length_app, Nat2Z.inj_add, IH.
  unfold get_num_blocks, table_ids, dict_values. now rewrite length_map.
Qed.

(** X14. Under the same discipline no block is ever lost or counted
    twice: the free count, the blocks the driver holds itself and the sum
    of [get_num_blocks] over all sequences (the driver's
    [total_blocks_used]) always add up to [num_blocks]. *)
Theorem blocks_are_conserved
    (n bs nl nh hs : Z) (dev : string) (ops : list op)
    (Hn : 0 <= n)
    (Hadm : admissible (boot n bs nl nh hs dev) ops = true) :
  let st := run (boot n bs nl nh hs dev) ops in
  get_num_free_blocks (pool st) + Z.of_nat (length (held st))
    + total_blocks_used (sequences st) = n.
Proof.
  intros st.
  pose proof (admissible_accounted _ _ _ _ _ _ _ Hadm) as Hacc. fold st in Hacc.
  apply Permutation_length in Hacc.
  unfold all_ids in Hacc. rewrite !length_app, range_length in Hacc.
  assert (Hnum : num_blocks (pool st) = n).
  { unfold st. now rewrite run_num_blocks. }
  rewrite Hnum in Hacc.
  rewrite <- total_blocks_used_length. unfold get_num_free_blocks. lia.
Qed.

Lemma blocks_are_conserved_witness :
  let st := run (boot 4 4 1 1 1 "cpu") busy_day in
  get_num_free_blocks (pool st) + Z.of_nat (length (held st))
    + total_blocks_used (sequences st) = 4.
Proof.
  apply (blocks_are_conserved 4 4 1 1 1 "cpu" busy_day).
  - lia.
  - reflexivity.
Defined.

Lemma get_physical_block_ok s k m p off :
  get_physical_block s k m = Ok (p, off) ->
  0 <= k < token_count s /\ block_size m <> 0 /\
  dict_get (k / block_size m) (block_table s) = Some p /\
  off = k mod block_size m.
Proof.
  unfold get_physical_block.
  destruct (k <? 0) eqn:E1; [discriminate|].
  destruct (k >=? token_count s) eqn:E2; [discriminate|]. simpl.
  destruct (Z.eqb_spec (block_size m) 0) as [|Hbs]; [discriminate|].
  destruct (dict_get (k / block_size m) (block_table s)) as [q|];
    [|discriminate].
  intros H. injection H as -> <-. repeat split; auto; lia.
Qed.

Lemma dict_get_In (k v : Z) (d : dict) :
  dict_get k d = Some v -> In v (dict_values d).
Proof.
  induction d as [|[k' v'] d IH]; simpl; [discriminate|].
  destruct (k =? k'); [intros [= ->]; now left | auto].
Qed.

Lemma dict_get_inj (k1 k2 v : Z) (d : dict) :
  NoDup (dict_values d) ->
  dict_get k1 d = Some v -> dict_get k2 d = Some v -> k1 = k2.
Proof.
  induction d as [|[k' v'] d IH]; simpl; intros Hnd H1 H2; [discriminate|].
  inversion Hnd as [|? ? Hnin Hnd']; subst.
  destruct (Z.eqb_spec k1 k') as [->|N1], (Z.eqb_spec k2 k') as [->|N2].
  - reflexivity.
  - injection H1 as ->. apply dict_get_In in H2. contradiction.
  - injection H2 as ->. apply dict_get_In in H1. contradiction.
  - now apply IH.
Qed.

(** X15. Under the same discipline, two different tokens never get the
    same address: if [get_physical_block] returns the same (block,
    offset) pair for token [ki] of the [i]-th sequence and token [kj] of
    the [j]-th, then [i = j] and [ki = kj]. *)
Theorem no_two_tokens_share_a_slot
    (n bs nl nh hs : Z) (dev : string) (ops : list op)
    (i j : nat) (si sj : Sequence) (ki kj : Z) (a : Z * Z)
    (Hadm : admissible (boot n bs nl nh hs dev) ops = true)
    (Hi : nth_error (sequences (run (boot n bs nl nh hs dev) ops)) i = Some si)
    (Hj : nth_error (sequences (run (boot n bs nl nh hs dev) ops)) j = Some sj)
    (Hki : get_physical_block si ki (pool (run (boot n bs nl nh hs dev) ops))
           = Ok a)
    (Hkj : get_physical_block sj kj (pool (run (boot n bs nl nh hs dev) ops))
           = Ok a) :
  i = j /\ ki = kj.
Proof.
  set (st := run (boot n bs nl nh hs dev) ops) in *.
  pose proof (admissible_accounted _ _ _ _ _ _ _ Hadm) as Hacc. fold st in Hacc.
  destruct a as [p off].
  apply get_physical_block_ok in Hki, Hkj.
  destruct Hki as (_ & Hbs & Hgi & Hoi), Hkj as (_ & _ & Hgj & Hoj).
  assert (Hij : i = j).
  { destruct (Nat.eq_dec i j) as [|Hne]; [assumption|]. exfalso.
    destruct (accounted_partition st Hacc) as (_ & _ & Hshare).
    apply (Hshare i j si sj p Hne Hi Hj); unfold table_ids;
      eapply dict_get_In; eassumption. }
  split; [assumption|]. subst j.
  assert (sj = si) by congruence. subst sj.
  destruct (accounted_sequence st i si Hacc Hi) as [Hnd _].
  apply NoDup_app_remove_l in Hnd.
  pose proof (dict_get_inj _ _ _ _ Hnd Hgi Hgj) as Hq.
  rewrite (Z.div_mod ki (block_size (pool st)) Hbs).
  rewrite (Z.div_mod kj (block_size (pool st)) Hbs).
  congruence.
Qed.

Lemma no_two_tokens_share_a_slot_witness :
  0%nat = 0%nat /\ 4 = 4.
Proof.
  apply (no_two_tokens_share_a_slot 4 4 1 1 1 "cpu"
           [NewSequence "a"; AppendTokens 0 5; NewSequence "b"; AppendToken 1]
           0%nat 0%nat (mkSequence "a" 5 [(0, 3); (1, 2)])
           (mkSequence "a" 5 [(0, 3); (1, 2)]) 4 4 (2, 0));
    reflexivity.
Defined.

End Discipline.

(** ** From a token position to the payload *)

Section Payload.

Lemma same_frame_refl m : same_frame m m.
Proof. exists (free_blocks m). now rewrite with_free_blocks_same. Qed.

Lemma same_frame_trans m1 m2 m3 :
  same_frame m1 m2 -> same_frame m2 m3 -> same_frame m1 m3.
Proof. intros [f1 ->] [f2 ->]. now exists f2. Qed.

Lemma allocate_block_frame m r m' :
  allocate_block m = (r, m') -> same_frame m m'.
Proof.
  intros H.
  destruct (allocate_block_cases m) as [[_ Ha]|[l [x [_ Ha]]]];
    rewrite Ha in H; injection H as _ <-;
    [apply same_frame_refl | now exists l].
Qed.

Lemma free_block_frame m b r m' :
  free_block m b = (r, m') -> same_frame m m'.
Proof.
  destruct r as [u|e]; intros H.
  - apply free_block_ok in H. destruct H as (_ & _ & ->). eexists; eauto.
  - apply free_block_raise in H. subst. apply same_frame_refl.
Qed.

Lemma appended_frame k s m s' m' :
  appended k s m s' m' -> same_frame m m'.
Proof.
  induction 1 as [|k s m s1 m1 s2 m2 Hstep _ IH]; [apply same_frame_refl|].
  eapply same_frame_trans; [|exact IH].
  apply append_token_ok in Hstep.
  destruct Hstep as (_ & _ & _ & [(_ & _ & ->)|(_ & p & Ha & _)]);
    [apply same_frame_refl | eapply allocate_block_frame, Ha].
Qed.

Lemma append_token_frame s m r s' m' :
  append_token s m = (r, s', m') -> same_frame m m'.
Proof.
  destruct r as [[]|e]; intros H.
  - apply (appended_frame 1 s m s' m').
    econstructor; [exact H | constructor].
  - apply append_token_raise in H. destruct H as (_ & -> & _).
    apply same_frame_refl.
Qed.

Lemma append_tokens_frame s m n r s' m' :
  append_tokens s m n = (r, s', m') -> same_frame m m'.
Proof.
  intros H. apply append_tokens_appended in H. destruct H as [k H].
  eapply appended_frame, H.
Qed.

Lemma free_all_blocks_frame s m r s' m' :
  free_all_blocks s m = (r, s', m') -> same_frame m m'.
Proof.
  intros H.
  destruct (free_all_blocks_cases s m)
    as [(m1 & Hrel & Hrun)
       |(pre & b & post & e & m1 & _ & Hrel & _ & Hrun & _)];
    rewrite Hrun in H; injection H as _ _ <-;
    apply released_facts in Hrel; destruct Hrel as [-> _]; eexists; eauto.
Qed.

Lemma on_sequence_frame i f st :
  (forall s r s' m', f s (pool st) = (r, s', m') -> same_frame (pool st) m') ->
  same_frame (pool st) (pool (on_sequence i f st)).
Proof.
  intros Hf. unfold on_sequence.
  destruct (nth_error (sequences st) i) as [s|]; [|apply same_frame_refl].
  destruct (f s (pool st)) as [[r s'] m'] eqn:H. simpl. eapply Hf, H.
Qed.

Lemma exec_frame st o : same_frame (pool st) (pool (exec st o)).
Proof.
  destruct o as [rid| |id|i|i n|i]; simpl.
  - apply same_frame_refl.
  - destruct (allocate_block (pool st)) as [[b|e] m'] eqn:H; simpl;
      eapply allocate_block_frame, H.
  - destruct (free_block (pool st) id) as [[u|e] m'] eqn:H; simpl;
      eapply free_block_frame, H.
  - apply on_sequence_frame. intros s r s' m'. apply append_token_frame.
  - apply on_sequence_frame. intros s r s' m'. apply append_tokens_frame.
  - apply on_sequence_frame. intros s r s' m'. apply free_all_blocks_frame.
Qed.

Lemma run_frame ops : forall st, same_frame (pool st) (pool (run st ops)).
Proof.
  induction ops as [|o ops IH]; intros st; [apply same_frame_refl|].
  simpl. eapply same_frame_trans; [apply exec_frame | apply IH].
Qed.

(** X16. Under the same discipline and with a positive block size, an
    address that [get_physical_block] returns is always usable: the block
    is an identifier of the pool, it is not in the free list (a sequence
    never reads or writes a freed block), the offset lies in
    [[0, block_size)], and [get_cache_block] returns the view of that
    block for both tensors. *)
Theorem translated_address_is_live
    (n bs nl nh hs : Z) (dev : string) (ops : list op)
    (i : nat) (s : Sequence) (k p off : Z)
    (Hbs : 0 < bs)
    (Hadm : admissible (boot n bs nl nh hs dev) ops = true)
    (Hi : nth_error (sequences (run (boot n bs nl nh hs dev) ops)) i = Some s)
    (Hk : get_physical_block s k (pool (run (boot n bs nl nh hs dev) ops))
          = Ok (p, off)) :
  let m := pool (run (boot n bs nl nh hs dev) ops) in
  0 <= p < n /\
  ~ In p (free_blocks m) /\
  0 <= off < bs /\
  get_cache_block m p "key" = ViewOk (mkCacheView KeyCache p (nl, nh, bs, hs)) /\
  get_cache_block m p "value" =
    ViewOk (mkCacheView ValueCache p (nl, nh, bs, hs)).
Proof.
  set (st := run (boot n bs nl nh hs dev) ops) in *. intros m.
  pose proof (admissible_accounted _ _ _ _ _ _ _ Hadm) as Hacc. fold st in Hacc.
  destruct (run_frame ops (boot n bs nl nh hs dev)) as [fb Hframe].
  fold st in Hframe. fold m in Hframe. simpl in Hframe.
  apply get_physical_block_ok in Hk. fold m in Hk.
  destruct Hk as (_ & _ & Hget & ->).
  apply dict_get_In in Hget. fold (table_ids s) in Hget.
  destruct (accounted_sequence st i s Hacc Hi) as [Hnd Hr].
  fold m in Hnd, Hr.
  assert (Hp : 0 <= p < n).
  { specialize (Hr p Hget). now rewrite Hframe in Hr. }
  assert (Hnf : ~ In p (free_blocks m)).
  { intros Hin. apply NoDup_app_remove_r in Hnd as Hndf.
    apply in_split in Hin. destruct Hin as (f1 & f2 & Hf).
    rewrite Hf, <- app_assoc in Hnd. simpl in Hnd.
    apply NoDup_remove_2 in Hnd. apply Hnd.
    apply in_or_app. right. apply in_or_app. now right. }
  split; [assumption|]. split; [assumption|]. split.
  - rewrite Hframe. simpl. apply Z.mod_pos_bound. assumption.
  - unfold get_cache_block. rewrite Hframe. simpl.
    destruct (p <? 0) eqn:E1; [lia|].
    destruct (p >=? n) eqn:E2; [lia|]. simpl. split; reflexivity.
Qed.

Lemma translated_address_is_live_witness :
  let m := pool (run (boot 4 4 1 1 1 "cpu")
                   [NewSequence "a"; AppendTokens 0 5; NewSequence "b";
                    AppendToken 1]) in
  0 <= 2 < 4 /\
  ~ In 2 (free_blocks m) /\
  0 <= 0 < 4 /\
  get_cache_block m 2 "key" = ViewOk (mkCacheView KeyCache 2 (1, 1, 4, 1)) /\
  get_cache_block m 2 "value" =
    ViewOk (mkCacheView ValueCache 2 (1, 1, 4, 1)).
Proof.
  apply (translated_address_is_live 4 4 1 1 1 "cpu"
           [NewSequence "a"; AppendTokens 0 5; NewSequence "b"; AppendToken 1]
           0%nat (mkSequence "a" 5 [(0, 3); (1, 2)]) 4 2 0).
  - lia.
  - reflexivity.
  - reflexivity.
  - reflexivity.
Defined.

End Payload.

(** ** Order of allocation and position in the table *)

Section Order.

Lemma allocate_times_exhausted (j : nat) (m : BlockManager) :
  free_blocks m = [] ->
  allocate_times j m =
    (repeat (Raise (AllAllocated (num_blocks m))) j, m).
Proof.
  intros Hf. induction j as [|j IH]; [reflexivity|].
  simpl. rewrite (allocate_block_empty m Hf), IH. reflexivity.
Qed.

Lemma allocate_times_add (j k : nat) :
  forall m,
    allocate_times (j + k) m =
    (fst (allocate_times j m) ++ fst (allocate_times k (snd (allocate_times j m))),
     snd (allocate_times k (snd (allocate_times j m)))).
Proof.
  induction j as [|j IH]; intros m; simpl.
  - now destruct (allocate_times k m).
  - destruct (allocate_block m) as [r m1]. rewrite IH.
    destruct (allocate_times j m1) as [rs m2]. simpl.
    now destruct (allocate_times k m2).
Qed.

(** X17. Repeated allocation from any pool hands out the free list from
    its end to its beginning (last released, first reused), each block
    once; every further call raises the out-of-blocks [RuntimeError] and
    leaves the pool empty as it is. *)
Theorem allocation_is_lifo_then_fails (m : BlockManager) (j : nat) :
  allocate_times (length (free_blocks m) + j) m =
    (map Ok (rev (free_blocks m))
       ++ repeat (Raise (AllAllocated (num_blocks m))) j,
     with_free_blocks m []).
Proof.
  rewrite allocate_times_add.
  rewrite (allocate_times_suffix (free_blocks m) [] m eq_refl). simpl.
  now rewrite (allocate_times_exhausted j (with_free_blocks m []) eq_refl).
Qed.

Lemma dict_get_by_position (d : dict) :
  forall a j,
    dict_keys d = map Z.of_nat (seq a (length d)) ->
    (j < length d)%nat ->
    dict_get (Z.of_nat (a + j)) d = nth_error (dict_values d) j.
Proof.
  induction d as [|[k v] d IH]; intros a j Hkeys Hj; simpl in *; [lia|].
  injection Hkeys as -> Hkeys.
  destruct j as [|j].
  - rewrite Nat.add_0_r, Z.eqb_refl. reflexivity.
  - destruct (Z.eqb_spec (Z.of_nat (a + S j)) (Z.of_nat a)) as [Heq|_]; [lia|].
    simpl. replace (a + S j)%nat with (S a + j)%nat by lia.
    apply IH; [assumption | lia].
Qed.

(** X18. The block of token [k] is the entry number [k // block_size] of
    [block_table.values()], the list the driver prints: for every [k] in
    [[0, token_count)], [get_physical_block] returns that entry together
    with the offset [k mod block_size]. *)
Theorem translate_by_position
    (bs : Z) (rid : string) (cs : list call) (m : BlockManager) (k : Z)
    (Hbs : 0 < bs) (Hcs : calls_on bs cs) (Hm : block_size m = bs)
    (Hk : 0 <= k < token_count (after_calls (Sequence_init rid) cs)) :
  let s := after_calls (Sequence_init rid) cs in
  exists p,
    nth_error (dict_values (block_table s)) (Z.to_nat (k / bs)) = Some p /\
    get_physical_block s k m = Ok (p, k mod bs).
Proof.
  intros s. fold s in Hk.
  pose proof (tiled_after_calls bs rid cs Hbs Hcs) as Ht. fold s in Ht.
  pose proof (tiled_num_blocks bs s Hbs Ht) as Hnb.
  destruct Ht as [Htc Hkeys].
  pose proof (ceil_div_bounds (token_count s) bs Hbs) as Hcd.
  pose proof (Z.div_mod k bs ltac:(lia)) as Hdm.
  pose proof (Z.mod_pos_bound k bs Hbs) as Hmod.
  assert (Hq : 0 <= k / bs < ceil_div (token_count s) bs) by nia.
  assert (Hlen : Z.of_nat (length (block_table s)) =
                 ceil_div (token_count s) bs) by exact Hnb.
  assert (Hkeys' : dict_keys (block_table s) =
                   map Z.of_nat (seq 0 (length (block_table s)))).
  { rewrite Hkeys. unfold range. now rewrite <- Hlen, Nat2Z.id. }
  pose proof (dict_get_by_position (block_table s) 0 (Z.to_nat (k / bs))
                Hkeys' ltac:(lia)) as Hpos.
  simpl in Hpos. rewrite Z2Nat.id in Hpos by lia.
  destruct (nth_error (dict_values (block_table s)) (Z.to_nat (k / bs)))
    as [p|] eqn:Hnth.
  - exists p. split; [reflexivity|].
    unfold get_physical_block. rewrite Hm.
    destruct (k <? 0) eqn:E1; [lia|].
    destruct (k >=? token_count s) eqn:E2; [lia|]. simpl.
    destruct (Z.eqb_spec bs 0) as [|_]; [lia|].
    now rewrite Hpos.
  - apply nth_error_None in Hnth. unfold dict_values in Hnth.
    rewrite length_map in Hnth. lia.
Qed.

Lemma translate_by_position_witness :
  let s := after_calls (Sequence_init "r") life_of_six in
  exists p,
    nth_error (dict_values (block_table s)) (Z.to_nat (5 / 4)) = Some p /\
    get_physical_block s 5 small_pool = Ok (p, 5 mod 4).
Proof.
  apply (translate_by_position 4 "r" life_of_six small_pool 5).
  - lia.
  - exact calls_on_life_of_six.
  - reflexivity.
  - simpl. lia.
Defined.

End Order.
